(** * Verification of [src/dist/src/util/utils.js] (deepstream.io client)

    A shallow embedding of the utility module: [parseUrl] together with the
    parts of Node's legacy [url] module it reaches ([url.parse] and
    [url.format]), the timer wrappers [setTimeout] and [setInterval], and the
    copying helpers [deepCopy], [deepEquals] and [shallowCopy] over a small
    JavaScript heap with JSON serialisation.

    Strings.  A JavaScript string is a sequence of UTF-16 code units; the
    model uses [string] whose characters are the code units 0..255 (the
    Latin-1 range of UTF-16).  Code units above 255 are not modelled. *)

From Stdlib Require Import String Ascii List ZArith Lia Bool.
From Stdlib Require Import DecimalFacts DecimalN DecimalPos.
From ITree Require Import ITree ITreeFacts.
From Paco Require Import paco.
From Stdlib Require Import List.
Import ListNotations.
Open Scope string_scope.
Open Scope nat_scope.

(* ------------------------------------------------------------------ *)
(** ** Outcomes of a JavaScript call *)

(** The exceptions the modelled code can raise.  [ErrorMsg m] is
    [new Error(m)].  [OutOfModel] marks a case the model does not cover
    (a branch of a library function unreachable from this module, or a
    character outside the modelled range); no statement below concludes
    anything from it. *)
Inductive exn : Type :=
| ErrorMsg (msg : string)
| TypeError
| SyntaxError
| URIError
| OutOfModel.

Inductive result (A : Type) : Type :=
| Ok (a : A)
| Throw (e : exn).
Arguments Ok {A} a.
Arguments Throw {A} e.

Definition bind_result {A B} (m : result A) (k : A -> result B) : result B :=
  match m with
  | Ok a => k a
  | Throw e => Throw e
  end.

Notation "'let*' x ':=' m 'in' k" := (bind_result m (fun x => k))
  (at level 200, x name, m at level 100, k at level 200).

(* ------------------------------------------------------------------ *)
(** ** String primitives *)

Definition code (c : ascii) : nat := nat_of_ascii c.

Definition char_is (n : nat) (c : ascii) : bool := Nat.eqb (code c) n.

(** [s.slice(a, b)] and [s.slice(a)] for indices within the string. *)
Definition slice (s : string) (a b : nat) : string := substring a (b - a) s.
Definition slice_from (s : string) (a : nat) : string :=
  substring a (String.length s - a) s.

(** [String.prototype.toLowerCase] on Latin-1 code units: A-Z and the
    Latin-1 capitals U+00C0..U+00DE (except U+00D7) move up by 32. *)
Definition lower_char (c : ascii) : ascii :=
  let n := code c in
  if ((65 <=? n) && (n <=? 90)) || ((192 <=? n) && (n <=? 222) && negb (n =? 215))
  then ascii_of_nat (n + 32) else c.

Fixpoint toLowerCase (s : string) : string :=
  match s with
  | EmptyString => EmptyString
  | String c s' => String (lower_char c) (toLowerCase s')
  end.

Fixpoint all_chars (p : ascii -> bool) (s : string) : bool :=
  match s with
  | EmptyString => true
  | String c s' => p c && all_chars p s'
  end.

Fixpoint last_char (s : string) : option ascii :=
  match s with
  | EmptyString => None
  | String c EmptyString => Some c
  | String _ s' => last_char s'
  end.

Definition first_char (s : string) : option ascii :=
  match s with
  | EmptyString => None
  | String c _ => Some c
  end.

Definition starts_with_char (n : nat) (s : string) : bool :=
  match s with
  | EmptyString => false
  | String c _ => char_is n c
  end.

Definition is_digit (c : ascii) : bool := (48 <=? code c) && (code c <=? 57).
Definition is_lower (c : ascii) : bool := (97 <=? code c) && (code c <=? 122).
Definition is_upper (c : ascii) : bool := (65 <=? code c) && (code c <=? 90).
Definition is_hex (c : ascii) : bool :=
  is_digit c || ((97 <=? code c) && (code c <=? 102)) || ((65 <=? code c) && (code c <=? 70)).
Definition hex_val (c : ascii) : nat :=
  if is_digit c then code c - 48
  else if (97 <=? code c) && (code c <=? 102) then code c - 87
  else code c - 55.
Definition hex_digit (n : nat) : ascii :=
  if n <? 10 then ascii_of_nat (48 + n) else ascii_of_nat (55 + n).
(** ["%XY"] with upper-case hexadecimal digits. *)
Definition percent (n : nat) : string :=
  String "%" (String (hex_digit (n / 16)) (String (hex_digit (n mod 16)) EmptyString)).

(* ------------------------------------------------------------------ *)
(** ** Node's legacy [url] module (lib/url.js of Node.js 10)

    [Url] objects.  A field the parser never sets is [null] in Node; every
    read of these fields in [url.parse], [url.format] and [parseUrl] is a
    truthiness test ([x || ''], [x ? a : b], [if (x)]), under which [null]
    and [''] agree, so both are represented by [""]. *)
Record Url : Type := mkUrl {
  protocol : string;
  slashes : bool;
  auth : string;
  host : string;
  port : string;
  hostname : string;
  hash : string;
  search : string;
  query : string;
  pathname : string
}.

(** Whitespace trimmed by [url.parse]: space, \t, \r, \n, \f and U+00A0
    (U+FEFF is above the modelled range). *)
Definition is_url_ws (c : ascii) : bool :=
  char_is 32 c || char_is 9 c || char_is 13 c || char_is 10 c || char_is 12 c
  || char_is 160 c.

Fixpoint ltrim (s : string) : string :=
  match s with
  | EmptyString => EmptyString
  | String c s' => if is_url_ws c then ltrim s' else s
  end.

Fixpoint rtrim (s : string) : string :=
  match s with
  | EmptyString => EmptyString
  | String c s' =>
      let r := rtrim s' in
      if is_url_ws c && String.eqb r "" then EmptyString else String c r
  end.

(** Back slashes before the first [?] or [#] become forward slashes. *)
Fixpoint convert_backslashes (s : string) : string :=
  match s with
  | EmptyString => EmptyString
  | String c s' =>
      if char_is 63 c || char_is 35 c then s
      else if char_is 92 c then String "/" (convert_backslashes s')
      else String c (convert_backslashes s')
  end.

(** The first loop of [Url.prototype.parse]: trim, and convert back
    slashes (leading and trailing white space never contains [?], [#] or
    a back slash, so trimming first gives the same string). *)
Definition url_prepare (url : string) : string :=
  convert_backslashes (rtrim (ltrim url)).

(** [protocolPattern = /^([a-z0-9.+-]+:)/i]. *)
Definition is_proto_char (c : ascii) : bool :=
  is_lower c || is_upper c || is_digit c || char_is 46 c || char_is 43 c || char_is 45 c.

Fixpoint proto_chars (s : string) : string * string :=
  match s with
  | EmptyString => (EmptyString, EmptyString)
  | String c s' =>
      if is_proto_char c then let (p, r) := proto_chars s' in (String c p, r)
      else (EmptyString, s)
  end.

Definition match_proto (s : string) : option (string * string) :=
  let (p, r) := proto_chars s in
  match r with
  | String c r' => if char_is 58 c && negb (String.eqb p "") then Some (p ++ ":", r') else None
  | EmptyString => None
  end.

(** Protocols with their own branches in [url.parse] ([hostlessProtocol],
    [slashedProtocol], [unsafeProtocol]).  [parseUrl] only ever passes
    [ws:] or [wss:], which belong to none of them. *)
Definition special_protocol (p : string) : bool :=
  existsb (String.eqb p)
    ["javascript:"; "http:"; "https:"; "ftp:"; "gopher:"; "file:"].

(** Characters that are never allowed in a host name (RFC 2396):
    tab, LF, CR, space, double quote, %, single quote, ;, <, >,
    back slash, ^, back quote, {, | and }. *)
Definition is_non_host_char (c : ascii) : bool :=
  existsb (fun n => char_is n c) [9; 10; 13; 32; 34; 37; 39; 59; 60; 62; 92; 94; 96; 123; 124; 125].

(** Host-ending characters: # / ?. *)
Definition is_host_end_char (c : ascii) : bool :=
  char_is 35 c || char_is 47 c || char_is 63 c.

(** The host scanning loop: returns the final [atSign] and [nonHost]
    ([None] for -1); [i] is the index of the first character of [s]. *)
Fixpoint host_scan (s : string) (i : nat) (atSign nonHost : option nat)
  : option nat * option nat :=
  match s with
  | EmptyString => (atSign, nonHost)
  | String c s' =>
      if is_non_host_char c then
        host_scan s' (S i) atSign (match nonHost with None => Some i | _ => nonHost end)
      else if is_host_end_char c then
        (atSign, match nonHost with None => Some i | _ => nonHost end)
      else if char_is 64 c then host_scan s' (S i) (Some i) None
      else host_scan s' (S i) atSign nonHost
  end.

(** [decodeURIComponent], for escapes of ASCII characters; a malformed
    escape throws [URIError]; an escape of a byte >= 0x80 starts a UTF-8
    sequence, which is not modelled. *)
Fixpoint decodeURIComponent (s : string) : result string :=
  match s with
  | EmptyString => Ok EmptyString
  | String c s' =>
      if char_is 37 c then
        match s' with
        | String h1 (String h2 s'') =>
            if is_hex h1 && is_hex h2 then
              let b := 16 * hex_val h1 + hex_val h2 in
              if b <? 128 then
                let* r := decodeURIComponent s'' in Ok (String (ascii_of_nat b) r)
              else Throw OutOfModel
            else Throw URIError
        | _ => Throw URIError
        end
      else let* r := decodeURIComponent s' in Ok (String c r)
  end.

(** [portPattern = /:[0-9]*$/]: the leftmost colon followed only by
    digits up to the end.  Returns the text before it and the digits. *)
Fixpoint port_split (s : string) : option (string * string) :=
  match s with
  | EmptyString => None
  | String c s' =>
      if char_is 58 c && all_chars is_digit s' then Some (EmptyString, s')
      else match port_split s' with
           | Some (b, d) => Some (String c b, d)
           | None => None
           end
  end.

(** [Url.prototype.parseHost]: returns [(hostname, port)]. *)
Definition parse_host (h : string) : string * string :=
  match port_split h with
  | Some (b, d) => (b, d)
  | None => (h, EmptyString)
  end.

Definition is_ipv6_hostname (h : string) : bool :=
  match h, last_char h with
  | String c _, Some l => char_is 91 c && char_is 93 l
  | _, _ => false
  end.

(** [validateHostname]: the valid prefix and the text from the first
    invalid character, if any. *)
Definition is_valid_host_char (c : ascii) : bool :=
  is_lower c || char_is 46 c || is_upper c || is_digit c || char_is 45 c
  || char_is 43 c || char_is 95 c || (127 <? code c).

Fixpoint validate_hostname (h : string) : option (string * string) :=
  match h with
  | EmptyString => None
  | String c h' =>
      if is_valid_host_char c then
        match validate_hostname h' with
        | Some (p, r) => Some (String c p, r)
        | None => None
        end
      else Some (EmptyString, h)
  end.

(** [toASCII(hostname, true)] (IDNA, lenient).  A host name of ASCII
    characters none of whose labels starts with [xn--] comes back
    unchanged, both from ICU's UTS-46 conversion (non-STD3, errors ignored
    in lenient mode) and from [punycode.toASCII] in a build without ICU.
    A non-ASCII character is punycoded and an [xn--] label may be replaced
    by ICU; neither is modelled. *)
Definition is_ascii_char (c : ascii) : bool := code c <? 128.

Fixpoint xn_label_after_dot (h : string) : bool :=
  match h with
  | EmptyString => false
  | String c h' => (char_is 46 c && String.prefix "xn--" h') || xn_label_after_dot h'
  end.

Definition has_xn_label (h : string) : bool :=
  String.prefix "xn--" h || xn_label_after_dot h.

Definition toASCII (h : string) : result string :=
  if all_chars is_ascii_char h && negb (has_xn_label h) then Ok h else Throw OutOfModel.

(** [autoEscapeStr]: tab, LF, CR, space, double quote, single quote, <, >,
    back slash, ^, back quote, {, | and } are percent-escaped. *)
Definition is_auto_escape (c : ascii) : bool :=
  existsb (fun n => char_is n c) [9; 10; 13; 32; 34; 39; 60; 62; 92; 94; 96; 123; 124; 125].

Fixpoint autoEscapeStr (s : string) : string :=
  match s with
  | EmptyString => EmptyString
  | String c s' =>
      if is_auto_escape c then percent (code c) ++ autoEscapeStr s'
      else String c (autoEscapeStr s')
  end.

(** Split at the first [?] or [#]. *)
Fixpoint split_qh (s : string) : string * string :=
  match s with
  | EmptyString => (EmptyString, EmptyString)
  | String c s' =>
      if char_is 63 c || char_is 35 c then (EmptyString, s)
      else let (a, b) := split_qh s' in (String c a, b)
  end.

Fixpoint split_hash (s : string) : string * string :=
  match s with
  | EmptyString => (EmptyString, EmptyString)
  | String c s' =>
      if char_is 35 c then (EmptyString, s)
      else let (a, b) := split_hash s' in (String c a, b)
  end.

(** The tail of [url.parse] after the host: [(pathname, search, query,
    hash)]. *)
Definition split_path (rest : string) : string * string * string * string :=
  let (p, r) := split_qh rest in
  if starts_with_char 63 r then
    let (srch, h) := split_hash r in (p, srch, slice_from srch 1, h)
  else (p, EmptyString, EmptyString, r).

(** [Url.prototype.parse(url, false, false)] for a URL whose protocol is
    not one of the special protocols (the only case [parseUrl] reaches:
    its argument always starts with [ws:] or [wss:]). *)
Definition url_parse (url : string) : result Url :=
  let rest := url_prepare url in
  match match_proto rest with
  | None => Throw OutOfModel
  | Some (proto, rest) =>
      let lowerProto := toLowerCase proto in
      if special_protocol lowerProto then Throw OutOfModel else
      let sl := String.prefix "//" rest in
      let rest := if sl then slice_from rest 2 else rest in
      let (atSign, nonHost) := host_scan rest 0 None None in
      let start := match atSign with Some a => S a | None => 0 end in
      let* au := match atSign with
                 | Some a => decodeURIComponent (slice rest 0 a)
                 | None => Ok EmptyString
                 end in
      let (host0, rest) := match nonHost with
                           | None => (slice_from rest start, EmptyString)
                           | Some n => (slice rest start n, slice_from rest n)
                           end in
      let (hn, prt) := parse_host host0 in
      let ipv6 := is_ipv6_hostname hn in
      let (hn, rest) := if ipv6 then (hn, rest)
                        else match validate_hostname hn with
                             | Some (p, r) => (p, "/" ++ r ++ rest)
                             | None => (hn, rest)
                             end in
      let hn := if 255 <? String.length hn then EmptyString else toLowerCase hn in
      let* hn := if ipv6 then Ok hn else toASCII hn in
      let hst := hn ++ (if String.eqb prt "" then EmptyString else ":" ++ prt) in
      let (hn, rest) := if ipv6
                        then (slice hn 1 (String.length hn - 1),
                              if starts_with_char 47 rest then rest else "/" ++ rest)
                        else (hn, rest) in
      let rest := autoEscapeStr rest in
      let '(pn, srch, qry, hsh) := split_path rest in
      Ok {| protocol := lowerProto; slashes := sl; auth := au; host := hst;
            port := prt; hostname := hn; hash := hsh; search := srch;
            query := qry; pathname := pn |}
  end.

(** [encodeStr(auth, noEscapeAuth, hexTable)]: ASCII characters outside
    [A-Za-z0-9] and [! ' ( ) * - . : _ ~] are percent-escaped; a Latin-1
    character >= 0x80 is escaped as its two UTF-8 bytes. *)
Definition no_escape_auth (c : ascii) : bool :=
  is_lower c || is_upper c || is_digit c
  || existsb (fun n => char_is n c) [33; 39; 40; 41; 42; 45; 46; 58; 95; 126].

Fixpoint encode_auth (s : string) : string :=
  match s with
  | EmptyString => EmptyString
  | String c s' =>
      let n := code c in
      if no_escape_auth c then String c (encode_auth s')
      else if n <? 128 then percent n ++ encode_auth s'
      else percent (192 + n / 64) ++ percent (128 + n mod 64) ++ encode_auth s'
  end.

(** [pathname] escaping in [format]: [#] and [?]. *)
Fixpoint escape_pathname (s : string) : string :=
  match s with
  | EmptyString => EmptyString
  | String c s' =>
      if char_is 35 c then "%23" ++ escape_pathname s'
      else if char_is 63 c then "%3F" ++ escape_pathname s'
      else String c (escape_pathname s')
  end.

Fixpoint escape_hash_in_search (s : string) : string :=
  match s with
  | EmptyString => EmptyString
  | String c s' =>
      if char_is 35 c then "%23" ++ escape_hash_in_search s'
      else String c (escape_hash_in_search s')
  end.

Fixpoint contains_char (n : nat) (s : string) : bool :=
  match s with
  | EmptyString => false
  | String c s' => char_is n c || contains_char n s'
  end.

Definition slashed_protocol (p : string) : bool :=
  existsb (String.eqb p)
    ["http"; "http:"; "https"; "https:"; "ftp"; "ftp:"; "gopher"; "gopher:"; "file"; "file:"].

(** [Url.prototype.format] ([url.format] of a [Url] object); [query] is
    never an object here ([parseQueryString] is false), so only [search]
    contributes the query part. *)
Definition url_format (u : Url) : string :=
  let au := if String.eqb (auth u) "" then EmptyString else encode_auth (auth u) ++ "@" in
  let proto := protocol u in
  let pn := escape_pathname (pathname u) in
  let hst := if negb (String.eqb (host u) "") then au ++ host u
             else if negb (String.eqb (hostname u) "") then
               au ++ (if contains_char 58 (hostname u)
                      then "[" ++ hostname u ++ "]" else hostname u)
                  ++ (if String.eqb (port u) "" then EmptyString else ":" ++ port u)
             else EmptyString in
  let srch := search u in
  let proto := match last_char proto with
               | Some c => if char_is 58 c then proto else proto ++ ":"
               | None => proto
               end in
  let '(hst, pn) :=
    if slashes u || slashed_protocol proto then
      if slashes u || negb (String.eqb hst "") then
        ("//" ++ hst,
         if negb (String.eqb pn "") && negb (starts_with_char 47 pn) then "/" ++ pn else pn)
      else if String.prefix "file" proto then ("//", pn)
      else (hst, pn)
    else (hst, pn) in
  let srch := escape_hash_in_search srch in
  let hsh := if negb (String.eqb (hash u) "") && negb (starts_with_char 35 (hash u))
             then "#" ++ hash u else hash u in
  let srch := if negb (String.eqb srch "") && negb (starts_with_char 63 srch)
              then "?" ++ srch else srch in
  proto ++ hst ++ pn ++ srch ++ hsh.

(* ------------------------------------------------------------------ *)
(** ** [parseUrl] *)

(** [hasUrlProtocol = /^wss:|^ws:|^\/\//]. *)
Definition hasUrlProtocol (url : string) : bool :=
  String.prefix "wss:" url || String.prefix "ws:" url || String.prefix "//" url.

(** [unsupportedProtocol = /^http:|^https:/]. *)
Definition unsupportedProtocol (url : string) : bool :=
  String.prefix "http:" url || String.prefix "https:" url.

Definition unsupported_error : exn := ErrorMsg "Only ws and wss are supported".
Definition missing_host_error : exn := ErrorMsg "invalid url, missing host".

(** Lines 147-152: the scheme is prepended to a URL without one. *)
Definition add_default_protocol (url : string) : string :=
  if negb (hasUrlProtocol url) then "ws://" ++ url
  else if String.prefix "//" url then "ws:" ++ url
  else url.

Definition parseUrl (initialURl defaultPath : string) : result string :=
  let url := initialURl in
  if unsupportedProtocol url then Throw unsupported_error else
  let url := add_default_protocol url in
  let* serverUrl := url_parse url in
  if String.eqb (host serverUrl) "" then Throw missing_host_error else
  let serverUrl :=
    {| protocol := if String.eqb (protocol serverUrl) "" then "ws:" else protocol serverUrl;
       slashes := slashes serverUrl; auth := auth serverUrl; host := host serverUrl;
       port := port serverUrl; hostname := hostname serverUrl; hash := hash serverUrl;
       search := search serverUrl; query := query serverUrl;
       pathname := if String.eqb (pathname serverUrl) "" then defaultPath
                   else pathname serverUrl |} in
  Ok (url_format serverUrl).

(** Characters of a host name in canonical form (lower-case letters,
    digits, dot and hyphen) and of a canonical path (no white space, no
    character that [url.parse] escapes, no [?] and no [#]). *)
Definition ldh_char (c : ascii) : bool :=
  is_lower c || is_digit c || char_is 46 c || char_is 45 c.

(** Characters of a host name that [url.parse] keeps: letters, digits,
    dot and hyphen. *)
Definition host_name_char (c : ascii) : bool := ldh_char c || is_upper c.

Definition path_char (c : ascii) : bool :=
  negb (is_auto_escape c || is_url_ws c || char_is 35 c || char_is 63 c).

(** A canonical URL: [ws:] or [wss:], [//], a host name, an optional
    numeric port and a path starting with [/]. *)
Definition canonical_url (scheme hn prt pth : string) : string :=
  scheme ++ "//" ++ hn ++ (if String.eqb prt "" then "" else ":" ++ prt) ++ "/" ++ pth.

(* ------------------------------------------------------------------ *)
(** ** JavaScript values *)

(** Heap locations and values.  A JavaScript number is modelled by an
    integer [VNum n] (the safe integers are the ones the statements use);
    fractions, NaN, the infinities and [-0] are not modelled.  An object is
    a reference [VRef l] into the heap defined further down. *)
Definition loc := nat.

Inductive jsval : Type :=
| VUndefined
| VNull
| VBool (b : bool)
| VNum (n : Z)
| VStr (s : string)
| VRef (l : loc).

(** [v === null]. *)
Definition is_null (v : jsval) : bool :=
  match v with VNull => true | _ => false end.

(* ------------------------------------------------------------------ *)
(** ** The timer wrappers [setTimeout] and [setInterval] *)

(** The platform timers the wrappers are meant to reach.  They are events:
    a call that reached a platform timer would show up as one. *)
Variant timerE : Type -> Type :=
| PlatformSetTimeout (callback : jsval) (ms : jsval) : timerE jsval
| PlatformSetInterval (callback : jsval) (ms : jsval) : timerE jsval.

(** [exports.setTimeout = (callback, timeoutDuration) => ...].  The name
    [exports.setTimeout] in the body is looked up when the body runs, and
    then denotes the wrapper itself: the recursive [call] below. *)
Definition setTimeout_body (args : jsval * jsval)
  : itree (callE (jsval * jsval) jsval +' timerE) jsval :=
  let '(callback, timeoutDuration) := args in
  if negb (is_null timeoutDuration) then call (callback, timeoutDuration)
  else Ret (VNum (-1)).

Definition setTimeout (callback timeoutDuration : jsval) : itree timerE jsval :=
  rec setTimeout_body (callback, timeoutDuration).

(** [exports.setInterval = (callback, intervalDuration) => ...], in the
    same way. *)
Definition setInterval_body (args : jsval * jsval)
  : itree (callE (jsval * jsval) jsval +' timerE) jsval :=
  let '(callback, intervalDuration) := args in
  if negb (is_null intervalDuration) then call (callback, intervalDuration)
  else Ret (VNum (-1)).

Definition setInterval (callback intervalDuration : jsval) : itree timerE jsval :=
  rec setInterval_body (callback, intervalDuration).


(* ------------------------------------------------------------------ *)
(** ** The heap *)

(** The objects the copying helpers meet: arrays (dense, their elements in
    index order), plain objects (their own properties, all enumerable data
    properties, in the order [Object.keys] lists them) and functions.
    Accessors, prototypes other than the built-in ones, proxies, holes and
    the other built-in object kinds are not modelled. *)
Inductive jsobj : Type :=
| OArray (elems : list jsval)
| OPlain (props : list (string * jsval))
| OFunction.

Definition heap := list jsobj.

Definition deref (h : heap) (l : loc) : option jsobj := nth_error h l.

(** A fresh object at the first unused location. *)
Definition alloc (h : heap) (o : jsobj) : heap * jsval :=
  ((h ++ [o])%list, VRef (length h)).

(** [typeof v]. *)
Definition typeof (h : heap) (v : jsval) : string :=
  match v with
  | VUndefined => "undefined"
  | VNull => "object"
  | VBool _ => "boolean"
  | VNum _ => "number"
  | VStr _ => "string"
  | VRef l => match deref h l with Some OFunction => "function" | _ => "object" end
  end.

(** [a === b]: objects by identity. *)
Definition strict_eq (a b : jsval) : bool :=
  match a, b with
  | VUndefined, VUndefined => true
  | VNull, VNull => true
  | VBool x, VBool y => Bool.eqb x y
  | VNum x, VNum y => Z.eqb x y
  | VStr x, VStr y => String.eqb x y
  | VRef x, VRef y => Nat.eqb x y
  | _, _ => false
  end.

(** [Array.isArray(v)]. *)
Definition isArray (h : heap) (v : jsval) : bool :=
  match v with
  | VRef l => match deref h l with Some (OArray _) => true | _ => false end
  | _ => false
  end.

(** Whether [v] is callable ([IsCallable]). *)
Definition callable (h : heap) (v : jsval) : bool :=
  match v with
  | VRef l => match deref h l with Some OFunction => true | _ => false end
  | _ => false
  end.

(** The value of an own property. *)
Fixpoint own_prop (ps : list (string * jsval)) (k : string) : option jsval :=
  match ps with
  | [] => None
  | (k', v) :: ps' => if String.eqb k' k then Some v else own_prop ps' k
  end.

(** Property order.  An array index is the decimal form, without leading
    zero, of an integer below 2^32 - 1; [Object.keys] lists the array
    indices first, in ascending order, then the other keys in the order
    they were created. *)
Fixpoint digits_value (s : string) (acc : N) : option N :=
  match s with
  | EmptyString => Some acc
  | String c r =>
      if is_digit c then digits_value r (acc * 10 + N.of_nat (code c - 48))%N else None
  end.

Definition array_index (k : string) : option N :=
  match k with
  | EmptyString => None
  | String c r =>
      if char_is 48 c then (if String.eqb r "" then Some 0%N else None)
      else match digits_value k 0 with
           | Some n => if (n <? 4294967295)%N then Some n else None
           | None => None
           end
  end.

Fixpoint insert_index (k : string) (i : N) (v : jsval) (ps : list (string * jsval))
  : list (string * jsval) :=
  match ps with
  | [] => [(k, v)]
  | (k', v') :: ps' =>
      match array_index k' with
      | Some j => if (i <? j)%N then (k, v) :: ps else (k', v') :: insert_index k i v ps'
      | None => (k, v) :: ps
      end
  end.

Definition has_key (ps : list (string * jsval)) (k : string) : bool :=
  existsb (fun p => String.eqb (fst p) k) ps.

(** [o[k] = v] on a plain object: an existing property keeps its place, a
    new one takes the place the property order gives it. *)
Definition obj_set (ps : list (string * jsval)) (k : string) (v : jsval)
  : list (string * jsval) :=
  if has_key ps k then map (fun p => if String.eqb (fst p) k then (k, v) else p) ps
  else match array_index k with
       | Some i => insert_index k i v ps
       | None => ps ++ [(k, v)]
       end.

(** The key lists a JavaScript object can have: no key twice, and the
    array indices first, in ascending order. *)
Fixpoint index_keys_sorted (prev : option N) (ks : list string) : bool :=
  match ks with
  | [] => true
  | k :: ks' =>
      match array_index k with
      | Some i =>
          match prev with Some p => (p <? i)%N | None => true end
          && index_keys_sorted (Some i) ks'
      | None =>
          forallb (fun k' => match array_index k' with Some _ => false | None => true end) ks'
      end
  end.

Definition keys_ok (ks : list string) : Prop :=
  NoDup ks /\ index_keys_sorted None ks = true.

(* ------------------------------------------------------------------ *)
(** ** JSON *)

(** The JSON texts [JSON.stringify] writes and [JSON.parse] reads, as
    trees; an object's members in text order. *)
#[warnings="-register-all"]
Inductive json : Type :=
| JNull
| JBool (b : bool)
| JNum (n : Z)
| JStr (s : string)
| JArr (elems : list json)
| JObj (members : list (string * json)).

Definition bs : ascii := ascii_of_nat 92.
Definition dq : ascii := ascii_of_nat 34.

Definition hex_lower (n : nat) : ascii :=
  if n <? 10 then ascii_of_nat (48 + n) else ascii_of_nat (87 + n).

(** One code unit in [QuoteJSONString]. *)
Definition quote_char (c : ascii) : string :=
  let n := code c in
  if n =? 8 then String bs "b"
  else if n =? 9 then String bs "t"
  else if n =? 10 then String bs "n"
  else if n =? 12 then String bs "f"
  else if n =? 13 then String bs "r"
  else if n =? 34 then String bs (String dq "")
  else if n =? 92 then String bs (String bs "")
  else if n <? 32 then
    String bs (String "u" (String "0" (String "0"
      (String (hex_lower (n / 16)) (String (hex_lower (n mod 16)) "")))))
  else String c "".

Fixpoint quote_chars (s : string) : string :=
  match s with
  | EmptyString => ""
  | String c r => quote_char c ++ quote_chars r
  end.

Definition QuoteJSONString (s : string) : string :=
  String dq (quote_chars s ++ String dq "").

(** The largest safe integer, 2^53 - 1. *)
Definition max_safe : Z := 9007199254740991.

Fixpoint uint_to_string (d : Decimal.uint) : string :=
  match d with
  | Decimal.Nil => ""
  | Decimal.D0 d => String "0" (uint_to_string d)
  | Decimal.D1 d => String "1" (uint_to_string d)
  | Decimal.D2 d => String "2" (uint_to_string d)
  | Decimal.D3 d => String "3" (uint_to_string d)
  | Decimal.D4 d => String "4" (uint_to_string d)
  | Decimal.D5 d => String "5" (uint_to_string d)
  | Decimal.D6 d => String "6" (uint_to_string d)
  | Decimal.D7 d => String "7" (uint_to_string d)
  | Decimal.D8 d => String "8" (uint_to_string d)
  | Decimal.D9 d => String "9" (uint_to_string d)
  end.

(** [Number::toString] on a safe integer: its decimal form. *)
Definition number_to_string (n : Z) : string :=
  (if (n <? 0)%Z then "-" else "") ++ uint_to_string (N.to_uint (Z.abs_N n)).

Fixpoint join (sep : string) (l : list string) : string :=
  match l with
  | [] => ""
  | x :: l' => x ++ match l' with [] => "" | _ => sep ++ join sep l' end
  end.

Fixpoint map_result {A B} (f : A -> result B) (l : list A) : result (list B) :=
  match l with
  | [] => Ok []
  | x :: l' => let* y := f x in let* ys := map_result f l' in Ok (y :: ys)
  end.

(** A callable own [toJSON]; the built-in prototypes have none. *)
Definition has_toJSON (h : heap) (o : jsobj) : bool :=
  match o with
  | OPlain ps => match own_prop ps "toJSON" with Some v => callable h v | None => false end
  | _ => false
  end.

(** [SerializeJSONProperty] with [SerializeJSONArray] and
    [SerializeJSONObject] (no replacer, no gap): [None] is [undefined],
    [stack] the objects being serialised.  The call of a [toJSON] method is
    not modelled.  The fuel bounds the depth of objects; along any path
    they are distinct (else [TypeError]), so [S (length h)] never runs
    out. *)
Fixpoint serialize (fuel : nat) (h : heap) (stack : list loc) (v : jsval)
  {struct fuel} : result (option string) :=
  match v with
  | VUndefined => Ok None
  | VNull => Ok (Some "null")
  | VBool b => Ok (Some (if b then "true" else "false"))
  | VNum n =>
      if (Z.abs n <=? max_safe)%Z then Ok (Some (number_to_string n)) else Throw OutOfModel
  | VStr s => Ok (Some (QuoteJSONString s))
  | VRef l =>
      match deref h l with
      | None => Throw OutOfModel
      | Some o =>
          if has_toJSON h o then Throw OutOfModel else
          match o with
          | OFunction => Ok None
          | _ =>
              if existsb (Nat.eqb l) stack then Throw TypeError else
              match fuel with
              | O => Throw OutOfModel
              | S f =>
                  match o with
                  | OArray vs =>
                      let* strs := map_result (fun e =>
                          let* r := serialize f h (l :: stack) e in
                          Ok (match r with Some s => s | None => "null" end)) vs in
                      Ok (Some ("[" ++ join "," strs ++ "]"))
                  | OPlain ps =>
                      let* ms := map_result (fun p =>
                          let* r := serialize f h (l :: stack) (snd p) in
                          Ok (match r with
                              | Some s => [QuoteJSONString (fst p) ++ ":" ++ s]
                              | None => []
                              end)) ps in
                      Ok (Some ("{" ++ join "," (concat ms) ++ "}"))
                  | OFunction => Ok None
                  end
              end
          end
      end
  end.

(** [JSON.stringify(v)]. *)
Definition JSON_stringify (h : heap) (v : jsval) : result (option string) :=
  serialize (S (length h)) h [] v.

(** Reading JSON text. *)
Definition is_json_ws (c : ascii) : bool :=
  char_is 9 c || char_is 10 c || char_is 13 c || char_is 32 c.

Fixpoint skip_ws (s : string) : string :=
  match s with
  | String c r => if is_json_ws c then skip_ws r else s
  | EmptyString => EmptyString
  end.

Fixpoint strip_prefix (p s : string) : option string :=
  match p, s with
  | EmptyString, _ => Some s
  | String a p', String b s' => if Ascii.eqb a b then strip_prefix p' s' else None
  | _, _ => None
  end.

(** The characters of a string literal after its opening quote, up to and
    past the closing quote.  A [\u] escape above 255 is out of the
    modelled range. *)
Fixpoint parse_string_chars (s : string) : result (string * string) :=
  match s with
  | EmptyString => Throw SyntaxError
  | String c r =>
      if char_is 34 c then Ok (EmptyString, r)
      else if char_is 92 c then
        match r with
        | EmptyString => Throw SyntaxError
        | String e r' =>
            if char_is 117 e then
              match r' with
              | String h1 (String h2 (String h3 (String h4 r''))) =>
                  if is_hex h1 && is_hex h2 && is_hex h3 && is_hex h4 then
                    let n := hex_val h1 * 4096 + hex_val h2 * 256 + hex_val h3 * 16 + hex_val h4 in
                    if n <? 256 then
                      let* p := parse_string_chars r'' in
                      Ok (String (ascii_of_nat n) (fst p), snd p)
                    else Throw OutOfModel
                  else Throw SyntaxError
              | _ => Throw SyntaxError
              end
            else
              let unescaped :=
                if char_is 34 e then Some 34 else if char_is 92 e then Some 92
                else if char_is 47 e then Some 47 else if char_is 98 e then Some 8
                else if char_is 102 e then Some 12 else if char_is 110 e then Some 10
                else if char_is 114 e then Some 13 else if char_is 116 e then Some 9
                else None in
              match unescaped with
              | Some n =>
                  let* p := parse_string_chars r' in
                  Ok (String (ascii_of_nat n) (fst p), snd p)
              | None => Throw SyntaxError
              end
        end
      else if code c <? 32 then Throw SyntaxError
      else let* p := parse_string_chars r in Ok (String c (fst p), snd p)
  end.

Definition digit_uint (c : ascii) (d : Decimal.uint) : Decimal.uint :=
  match code c - 48 with
  | 0 => Decimal.D0 d | 1 => Decimal.D1 d | 2 => Decimal.D2 d | 3 => Decimal.D3 d
  | 4 => Decimal.D4 d | 5 => Decimal.D5 d | 6 => Decimal.D6 d | 7 => Decimal.D7 d
  | 8 => Decimal.D8 d | _ => Decimal.D9 d
  end.

Fixpoint lex_digits (s : string) : Decimal.uint * string :=
  match s with
  | String c r =>
      if is_digit c then let '(d, rest) := lex_digits r in (digit_uint c d, rest)
      else (Decimal.Nil, s)
  | EmptyString => (Decimal.Nil, EmptyString)
  end.

(** A number: [-], then [0] or a digit string not starting with [0].  A
    fraction, an exponent, [-0] and integers beyond the safe ones are out
    of the modelled range. *)
Definition parse_number (s : string) : result (json * string) :=
  let '(neg, s1) :=
    match s with
    | String c r => if char_is 45 c then (true, r) else (false, s)
    | EmptyString => (false, s)
    end in
  let* p :=
    match s1 with
    | String c r =>
        if char_is 48 c then Ok (0%N, r)
        else if is_digit c then let '(d, rest) := lex_digits s1 in Ok (N.of_uint d, rest)
        else Throw SyntaxError
    | EmptyString => Throw SyntaxError
    end in
  let '(m, rest) := p in
  if match rest with
     | String c _ => char_is 46 c || char_is 101 c || char_is 69 c
     | EmptyString => false
     end then Throw OutOfModel
  else if neg && (m =? 0)%N then Throw OutOfModel
  else if (max_safe <? Z.of_N m)%Z then Throw OutOfModel
  else Ok (JNum (if neg then - Z.of_N m else Z.of_N m)%Z, rest).

(** A value, an array after its [[] and an object after its [{]: the tree
    and the text left.  The fuel bounds the nesting and the length of
    arrays and objects; running out of it is out of the modelled range. *)
Fixpoint parse_value (fuel : nat) (s : string) {struct fuel} : result (json * string) :=
  match fuel with
  | O => Throw OutOfModel
  | S f =>
      match skip_ws s with
      | EmptyString => Throw SyntaxError
      | String c r =>
          if char_is 123 c then
            match skip_ws r with
            | String c' r' => if char_is 125 c' then Ok (JObj [], r') else parse_members f [] r
            | EmptyString => Throw SyntaxError
            end
          else if char_is 91 c then
            match skip_ws r with
            | String c' r' => if char_is 93 c' then Ok (JArr [], r') else parse_elems f [] r
            | EmptyString => Throw SyntaxError
            end
          else if char_is 34 c then
            let* p := parse_string_chars r in Ok (JStr (fst p), snd p)
          else if char_is 110 c then
            match strip_prefix "ull" r with Some r' => Ok (JNull, r') | None => Throw SyntaxError end
          else if char_is 116 c then
            match strip_prefix "rue" r with Some r' => Ok (JBool true, r') | None => Throw SyntaxError end
          else if char_is 102 c then
            match strip_prefix "alse" r with Some r' => Ok (JBool false, r') | None => Throw SyntaxError end
          else if char_is 45 c || is_digit c then parse_number (String c r)
          else Throw SyntaxError
      end
  end
with parse_elems (fuel : nat) (acc : list json) (s : string) {struct fuel}
  : result (json * string) :=
  match fuel with
  | O => Throw OutOfModel
  | S f =>
      let* p := parse_value f s in
      match skip_ws (snd p) with
      | String c r =>
          if char_is 44 c then parse_elems f (acc ++ [fst p]) r
          else if char_is 93 c then Ok (JArr (acc ++ [fst p]), r)
          else Throw SyntaxError
      | EmptyString => Throw SyntaxError
      end
  end
with parse_members (fuel : nat) (acc : list (string * json)) (s : string) {struct fuel}
  : result (json * string) :=
  match fuel with
  | O => Throw OutOfModel
  | S f =>
      match skip_ws s with
      | String c r =>
          if char_is 34 c then
            let* k := parse_string_chars r in
            match skip_ws (snd k) with
            | String c' r' =>
                if char_is 58 c' then
                  let* p := parse_value f r' in
                  match skip_ws (snd p) with
                  | String c'' r'' =>
                      if char_is 44 c'' then parse_members f (acc ++ [(fst k, fst p)]) r''
                      else if char_is 125 c'' then Ok (JObj (acc ++ [(fst k, fst p)]), r'')
                      else Throw SyntaxError
                  | EmptyString => Throw SyntaxError
                  end
                else Throw SyntaxError
            | EmptyString => Throw SyntaxError
            end
          else Throw SyntaxError
      | EmptyString => Throw SyntaxError
      end
  end.

(** [alloc_seq f h xs]: [f] on each element of [xs], left to right,
    threading the heap. *)
Fixpoint alloc_seq {A B} (f : heap -> A -> heap * B) (h : heap) (xs : list A)
  : heap * list B :=
  match xs with
  | [] => (h, [])
  | x :: xs' =>
      let hv := f h x in
      let hvs := alloc_seq f (fst hv) xs' in
      (fst hvs, snd hv :: snd hvs)
  end.

(** The objects [JSON.parse] creates for a tree.  A child is allocated
    before its parent (locations are not observable); an object's members
    are added in text order by [obj_set]. *)
Fixpoint alloc_json (h : heap) (t : json) {struct t} : heap * jsval :=
  match t with
  | JNull => (h, VNull)
  | JBool b => (h, VBool b)
  | JNum n => (h, VNum n)
  | JStr s => (h, VStr s)
  | JArr ts =>
      let hv := alloc_seq alloc_json h ts in
      alloc (fst hv) (OArray (snd hv))
  | JObj ms =>
      let hp := alloc_seq (fun h m => let hv := alloc_json h (snd m) in (fst hv, (fst m, snd hv))) h ms in
      alloc (fst hp) (OPlain (fold_left (fun acc p => obj_set acc (fst p) (snd p)) (snd hp) []))
  end.

(** [JSON.parse(text)]. *)
Definition JSON_parse (h : heap) (text : string) : result (heap * jsval) :=
  let* p := parse_value (S (String.length text)) text in
  if String.eqb (skip_ws (snd p)) "" then Ok (alloc_json h (fst p)) else Throw SyntaxError.

(* ------------------------------------------------------------------ *)
(** ** [deepEquals], [deepCopy] and [shallowCopy] *)

(** [exports.deepEquals = (objA, objB) => ...]. *)
Definition deepEquals (h : heap) (objA objB : jsval) : result bool :=
  if strict_eq objA objB then Ok true
  else if negb (String.eqb (typeof h objA) "object") || negb (String.eqb (typeof h objB) "object")
  then Ok false
  else
    let* sa := JSON_stringify h objA in
    let* sb := JSON_stringify h objB in
    Ok (match sa, sb with
        | Some a, Some b => String.eqb a b
        | None, None => true
        | _, _ => false
        end).

(** [exports.deepCopy = (obj) => ...]; [JSON.parse(undefined)] reads the
    text [undefined]. *)
Definition deepCopy (h : heap) (obj : jsval) : result (heap * jsval) :=
  if String.eqb (typeof h obj) "object" then
    let* so := JSON_stringify h obj in
    JSON_parse h (match so with Some s => s | None => "undefined" end)
  else Ok (h, obj).

(** [exports.shallowCopy = (obj) => ...]: [obj.slice(0)] for an array;
    otherwise, for [typeof obj === 'object'], [Object.create(null)] filled
    by [copy[k] = obj[k]] for [k] in [Object.keys(obj)], and
    [Object.keys(null)] throws a [TypeError]. *)
Definition shallowCopy (h : heap) (obj : jsval) : result (heap * jsval) :=
  if isArray h obj then
    match obj with
    | VRef l =>
        match deref h l with
        | Some (OArray vs) => Ok (alloc h (OArray vs))
        | _ => Throw OutOfModel
        end
    | _ => Throw OutOfModel
    end
  else if String.eqb (typeof h obj) "object" then
    match obj with
    | VRef l =>
        match deref h l with
        | Some (OPlain ps) =>
            let copy :=
              fold_left (fun acc k =>
                  obj_set acc k (match own_prop ps k with Some v => v | None => VUndefined end))
                (map fst ps) [] in
            Ok (alloc h (OPlain copy))
        | _ => Throw OutOfModel
        end
    | _ => Throw TypeError
    end
  else Ok (h, obj).

(** [reps h stack v t]: [v] is a JSON-serialisable value denoting the tree
    [t]: no function and no [undefined] in it, safe integers, and no
    object that is its own descendant ([stack] holds the objects on the
    path from the root; the statements start from [[]]).  The key lists
    are those a JavaScript object has ([keys_ok]). *)
#[warnings="-register-all"]
Inductive reps (h : heap) : list loc -> jsval -> json -> Prop :=
| reps_null stack : reps h stack VNull JNull
| reps_bool stack b : reps h stack (VBool b) (JBool b)
| reps_num stack n : (Z.abs n <= max_safe)%Z -> reps h stack (VNum n) (JNum n)
| reps_str stack s : reps h stack (VStr s) (JStr s)
| reps_arr stack l vs ts :
    deref h l = Some (OArray vs) -> ~ In l stack ->
    Forall2 (reps h (l :: stack)) vs ts -> reps h stack (VRef l) (JArr ts)
| reps_obj stack l ps ms :
    deref h l = Some (OPlain ps) -> ~ In l stack -> keys_ok (map fst ps) ->
    map fst ps = map fst ms ->
    Forall2 (fun p m => reps h (l :: stack) (snd p) (snd m)) ps ms ->
    reps h stack (VRef l) (JObj ms).

(** The trees [reps] admits: safe integers, key lists of objects. *)
#[warnings="-register-all"]
Inductive json_wf : json -> Prop :=
| wf_null : json_wf JNull
| wf_bool b : json_wf (JBool b)
| wf_num n : (Z.abs n <= max_safe)%Z -> json_wf (JNum n)
| wf_str s : json_wf (JStr s)
| wf_arr ts : Forall json_wf ts -> json_wf (JArr ts)
| wf_obj ms : keys_ok (map fst ms) -> Forall (fun m => json_wf (snd m)) ms -> json_wf (JObj ms).

(** The text of a tree, as [JSON.stringify] writes it. *)
Fixpoint print_json (t : json) : string :=
  match t with
  | JNull => "null"
  | JBool b => if b then "true" else "false"
  | JNum n => number_to_string n
  | JStr s => QuoteJSONString s
  | JArr ts => "[" ++ join "," (map print_json ts) ++ "]"
  | JObj ms =>
      "{" ++ join "," (map (fun m => QuoteJSONString (fst m) ++ ":" ++ print_json (snd m)) ms) ++ "}"
  end.

(** A bound on the fuel [parse_value] needs for a tree. *)
Fixpoint json_size (t : json) : nat :=
  match t with
  | JArr ts => 1 + list_sum (map (fun t => S (json_size t)) ts)
  | JObj ms => 1 + list_sum (map (fun m => S (json_size (snd m))) ms)
  | _ => 1
  end.

(** Text that may follow a value inside a JSON text written by
    [JSON.stringify]. *)
Definition delim_ok (rest : string) : bool :=
  match rest with
  | EmptyString => true
  | String c _ => char_is 44 c || char_is 93 c || char_is 125 c
  end.

(* ------------------------------------------------------------------ *)
(** ** [trim] *)

(** The white space [String.prototype.trim] removes and [\s] matches
    (WhiteSpace and LineTerminator), in the modelled range: \t, \n, \v,
    \f, \r, space and U+00A0. *)
Definition is_js_ws (c : ascii) : bool :=
  char_is 9 c || char_is 10 c || char_is 11 c || char_is 12 c || char_is 13 c
  || char_is 32 c || char_is 160 c.

(** [String.prototype.trim]: the string with its leading and trailing
    white space removed. *)
Fixpoint trim_start (s : string) : string :=
  match s with
  | EmptyString => EmptyString
  | String c s' => if is_js_ws c then trim_start s' else s
  end.

Fixpoint trim_end (s : string) : string :=
  match s with
  | EmptyString => EmptyString
  | String c s' =>
      let r := trim_end s' in
      if is_js_ws c && String.eqb r "" then EmptyString else String c r
  end.

Definition string_trim (s : string) : string := trim_end (trim_start s).

(** The character class [[\s\uFEFF\xA0]] of [TRIM_REGULAR_EXPRESSION]
    (U+FEFF is above the modelled range). *)
Definition trim_class (c : ascii) : bool := is_js_ws c || char_is 160 c.

(** The number of characters a greedy [[...]+] takes first. *)
Fixpoint class_run (p : ascii -> bool) (s : string) : nat :=
  match s with
  | EmptyString => 0
  | String c s' => if p c then S (class_run p s') else 0
  end.

(** Backtracking of a greedy [+] that took [k] characters: the lengths
    [k], [k-1], ..., [1] in turn, the first for which the rest of the
    pattern ([rest]) matches. *)
Fixpoint backtrack (rest : nat -> bool) (k : nat) : option nat :=
  match k with
  | 0 => None
  | S k' => if rest k then Some k else backtrack rest k'
  end.

(** [TRIM_REGULAR_EXPRESSION = /^[\s\uFEFF\xA0]+|[\s\uFEFF\xA0]+$/g] tried
    at index [i] of [s]: the alternative [^[...]+], then [[...]+$]; the
    end index of the match. *)
Definition trim_match_at (s : string) (i : nat) : option nat :=
  let k := class_run trim_class (slice_from s i) in
  match (if i =? 0 then backtrack (fun _ => true) k else None) with
  | Some j => Some (i + j)
  | None =>
      match backtrack (fun j => i + j =? String.length s) k with
      | Some j => Some (i + j)
      | None => None
      end
  end.

(** [RegExpBuiltinExec] from [lastIndex]: the first index from [lastIndex]
    on (up to the length of [s]) where the expression matches, with the
    end of the match. *)
Fixpoint trim_exec (s : string) (lastIndex fuel : nat) : option (nat * nat) :=
  match fuel with
  | 0 => None
  | S f =>
      if String.length s <? lastIndex then None else
      match trim_match_at s lastIndex with
      | Some e => Some (lastIndex, e)
      | None => trim_exec s (S lastIndex) f
      end
  end.

(** The matches a global [replace] collects, [lastIndex] starting at 0
    (an empty match would move it on by one). *)
Fixpoint trim_matches (s : string) (lastIndex fuel : nat) : list (nat * nat) :=
  match fuel with
  | 0 => []
  | S f =>
      match trim_exec s lastIndex (S (S (String.length s))) with
      | None => []
      | Some (i, e) => (i, e) :: trim_matches s (if e =? i then S e else e) f
      end
  end.

(** The result of [replace]: the text before, between and after the
    matches, each match replaced by [replacement]. *)
Fixpoint replace_matches (s : string) (next : nat) (ms : list (nat * nat))
    (replacement : string) : string :=
  match ms with
  | [] => slice_from s next
  | (i, e) :: ms' =>
      if next <=? i then slice s next i ++ replacement ++ replace_matches s e ms' replacement
      else replace_matches s next ms' replacement
  end.

(** [inputString.replace(TRIM_REGULAR_EXPRESSION, '')]. *)
Definition trim_regex_replace (s : string) : string :=
  replace_matches s 0 (trim_matches s 0 (S (S (String.length s)))) "".

(** [exports.trim = function (inputString) {...}]: [has_trim] tells whether
    [inputString.trim] is present (it is wherever strings have ES5's
    [String.prototype.trim]). *)
Definition trim (has_trim : bool) (inputString : string) : string :=
  if has_trim then string_trim inputString else trim_regex_replace inputString.

(* ------------------------------------------------------------------ *)
(** ** [isNode] and [nextTick] *)

(** [exports.isNode = typeof process !== 'undefined' && process.toString()
    === '[object process]']: [process] is [None] where [typeof process] is
    ['undefined'], and otherwise gives what [process.toString()] returns. *)
Definition isNode (process : option string) : bool :=
  match process with
  | None => false
  | Some process_toString => String.eqb process_toString "[object process]"
  end.

(** Node's [process.nextTick(fn)], as an event. *)
Variant processE : Type -> Type :=
| ProcessNextTick (fn : jsval) : processE unit.

(** [exports.nextTick = (fn) => {...}]: [process.nextTick(fn)] under Node,
    else [exports.setTimeout(fn, 0)] (the wrapper above); the block body
    returns [undefined]. *)
Definition nextTick (process : option string) (fn : jsval)
  : itree (processE +' timerE) jsval :=
  if isNode process then
    ITree.bind (ITree.trigger (inl1 (ProcessNextTick fn))) (fun _ => Ret VUndefined)
  else
    ITree.bind (translate inr1 (setTimeout fn (VNum 0))) (fun _ => Ret VUndefined).

(* ------------------------------------------------------------------ *)
(** ** Objects reached from a value *)

(** [reaches h v l]: the object at [l] is [v] or is reached from it through
    array elements and property values. *)
Inductive reaches (h : heap) : jsval -> loc -> Prop :=
| reaches_here l : reaches h (VRef l) l
| reaches_elem l vs v l' :
    deref h l = Some (OArray vs) -> In v vs -> reaches h v l' -> reaches h (VRef l) l'
| reaches_prop l ps p l' :
    deref h l = Some (OPlain ps) -> In p ps -> reaches h (snd p) l' -> reaches h (VRef l) l'.

(* ================================================================== *)
(** * Proofs *)

(* ------------------------------------------------------------------ *)
(** ** Lemmas on the URL embedding *)

Lemma str_app_assoc (a b c : string) : (a ++ b) ++ c = a ++ (b ++ c).
Proof. induction a as [|x a IH]; simpl; [reflexivity|]. rewrite IH. reflexivity. Qed.

Lemma str_app_nil_r (a : string) : a ++ "" = a.
Proof. induction a as [|x a IH]; simpl; [reflexivity|]. rewrite IH. reflexivity. Qed.

Lemma str_length_app (a b : string) : String.length (a ++ b) = String.length a + String.length b.
Proof. induction a as [|x a IH]; simpl; [reflexivity|]. rewrite IH. reflexivity. Qed.

Lemma decodeURIComponent_throw s e :
  decodeURIComponent s = Throw e -> e = URIError \/ e = OutOfModel.
Proof.
  remember (String.length s) as n eqn:Hn.
  revert s e Hn. induction n as [n IH] using lt_wf_ind.
  intros [|c s] e Hn; simpl; [discriminate|].
  destruct (char_is 37 c).
  - destruct s as [|h1 [|h2 s']]; try (intros Ht; inversion Ht; auto; fail).
    destruct (is_hex h1 && is_hex h2); [|intros Ht; inversion Ht; auto].
    destruct (_ <? 128); [|intros Ht; inversion Ht; auto].
    destruct (decodeURIComponent s') eqn:E; simpl; [discriminate|].
    intros Ht; inversion Ht; subst.
    eapply (IH (String.length s')); [simpl; lia | reflexivity | exact E].
  - destruct (decodeURIComponent s) eqn:E; simpl; [discriminate|].
    intros Ht; inversion Ht; subst.
    eapply (IH (String.length s)); [simpl; lia | reflexivity | exact E].
Qed.

Lemma url_parse_throw url e :
  url_parse url = Throw e -> e = URIError \/ e = OutOfModel.
Proof.
  unfold url_parse, toASCII.
  destruct (match_proto (url_prepare url)) as [[proto rest]|];
    [|intros Ht; inversion Ht; auto].
  destruct (special_protocol (toLowerCase proto)); [intros Ht; inversion Ht; auto|].
  destruct (host_scan _ 0 None None) as [atSign nonHost].
  destruct atSign as [a|]; simpl.
  - destruct (decodeURIComponent _) eqn:E; simpl.
    + repeat match goal with
             | |- context [match ?x with _ => _ end] => destruct x
             end; simpl; try discriminate; intros Ht; inversion Ht; auto.
    + intros Ht; inversion Ht; subst. eapply decodeURIComponent_throw; eauto.
  - repeat match goal with
           | |- context [match ?x with _ => _ end] => destruct x
           end; simpl; try discriminate; intros Ht; inversion Ht; auto.
Qed.

Lemma parseUrl_throw_sites u d e :
  parseUrl u d = Throw e ->
  (unsupportedProtocol u = true /\ e = unsupported_error)
  \/ e = missing_host_error \/ e = URIError \/ e = OutOfModel.
Proof.
  unfold parseUrl.
  destruct (unsupportedProtocol u) eqn:U.
  - intros Ht; inversion Ht; auto.
  - destruct (url_parse (add_default_protocol u)) as [r|e'] eqn:P; simpl.
    + destruct (String.eqb (host r) ""); intros Ht; inversion Ht; auto.
    + intros Ht; inversion Ht; subst.
      destruct (url_parse_throw _ _ P); auto.
Qed.

(* ------------------------------------------------------------------ *)
(** ** Claims on [parseUrl] *)

(** C1: every input starting with [http:] or [https:] is rejected, for
    every default path, with [new Error('Only ws and wss are supported')]
    (UnsupportedProtocolError); no URL is returned. *)
Theorem parseUrl_http_rejected (u d : string)
  (Hhttp : String.prefix "http:" u = true \/ String.prefix "https:" u = true) :
  parseUrl u d = Throw unsupported_error.
Proof.
  unfold parseUrl, unsupportedProtocol.
  destruct Hhttp as [H | H]; rewrite H; [reflexivity|].
  rewrite orb_true_r. reflexivity.
Qed.

Lemma parseUrl_http_rejected_witness :
  parseUrl "https://example.com" "/socket" = Throw unsupported_error.
Proof. apply parseUrl_http_rejected. right. reflexivity. Defined.

(** C2: an input that passes the [http:]/[https:] check (the first step,
    which precedes the scheme prepending) and whose scheme-prepended form
    parses to a URL without host is rejected with
    [new Error('invalid url, missing host')] (InvalidUrlError), for every
    default path. *)
Theorem parseUrl_missing_host (u d : string) (r : Url)
  (Hsupported : unsupportedProtocol u = false)
  (Hparse : url_parse (add_default_protocol u) = Ok r)
  (Hhost : host r = "") :
  parseUrl u d = Throw missing_host_error.
Proof.
  unfold parseUrl. rewrite Hsupported, Hparse. simpl.
  rewrite Hhost. reflexivity.
Qed.

Lemma parseUrl_missing_host_witness :
  parseUrl "" "/socket" = Throw missing_host_error
  /\ parseUrl "/path" "/socket" = Throw missing_host_error.
Proof.
  split; eapply parseUrl_missing_host; reflexivity.
Defined.

(** C7: the rejection with UnsupportedProtocolError is a case-sensitive
    prefix test: it happens exactly for inputs starting with the lower
    case [http:] or [https:]; [HTTP://example.com] is not rejected (it
    becomes [ws://http//example.com]). *)
Theorem parseUrl_unsupported_iff :
  (forall u d, parseUrl u d = Throw unsupported_error <->
               String.prefix "http:" u = true \/ String.prefix "https:" u = true)
  /\ parseUrl "HTTP://example.com" "/socket" = Ok "ws://http//example.com".
Proof.
  split; [|reflexivity].
  intros u d. split.
  - intros H. destruct (parseUrl_throw_sites _ _ _ H) as [[U _] | [E | [E | E]]].
    + unfold unsupportedProtocol in U. apply orb_true_iff in U. exact U.
    + discriminate E.
    + discriminate E.
    + discriminate E.
  - intros H. unfold parseUrl, unsupportedProtocol.
    apply orb_true_iff in H. rewrite H. reflexivity.
Qed.

(* ------------------------------------------------------------------ *)
(** ** Shape of a successful [url.parse] *)

Lemma split_hash_props s a b :
  split_hash s = (a, b) ->
  contains_char 35 a = false /\ s = a ++ b /\ (b = "" \/ starts_with_char 35 b = true).
Proof.
  revert a b. induction s as [|c s IH]; simpl; intros a b H.
  - inversion H; subst. auto.
  - destruct (char_is 35 c) eqn:Ec.
    + inversion H; subst. simpl. rewrite Ec. auto.
    + destruct (split_hash s) as [a' b'] eqn:E. inversion H; subst.
      destruct (IH _ _ eq_refl) as [H1 [H2 H3]].
      simpl. rewrite Ec, H1, H2. auto.
Qed.

Lemma split_qh_props s a b :
  split_qh s = (a, b) ->
  s = a ++ b /\ (b = "" \/ starts_with_char 63 b = true \/ starts_with_char 35 b = true).
Proof.
  revert a b. induction s as [|c s IH]; simpl; intros a b H.
  - inversion H; subst. auto.
  - destruct (char_is 63 c || char_is 35 c) eqn:Ec.
    + inversion H; subst. simpl. apply orb_true_iff in Ec. intuition.
    + destruct (split_qh s) as [a' b'] eqn:E. inversion H; subst.
      destruct (IH _ _ eq_refl) as [H1 H2]. simpl. rewrite H1. auto.
Qed.

(** The query part produced by [url.parse] is empty or starts with [?]
    and has no [#]; the fragment is empty or starts with [#]. *)
Lemma split_path_props rest p srch q h :
  split_path rest = (p, srch, q, h) ->
  (srch = "" \/ starts_with_char 63 srch = true) /\ contains_char 35 srch = false
  /\ (h = "" \/ starts_with_char 35 h = true).
Proof.
  unfold split_path. destruct (split_qh rest) as [a b] eqn:E.
  destruct (split_qh_props _ _ _ E) as [_ Hb].
  destruct (starts_with_char 63 b) eqn:Eq.
  - destruct (split_hash b) as [x y] eqn:Eh. intros H; inversion H; subst.
    destruct (split_hash_props _ _ _ Eh) as [H1 [H2 H3]].
    repeat split; auto.
    destruct b as [|c b]; [discriminate|]. simpl in Eq, Eh.
    destruct (char_is 35 c) eqn:Ec.
    + unfold char_is in Eq, Ec. apply Nat.eqb_eq in Eq, Ec. congruence.
    + destruct (split_hash b). inversion Eh; subst. simpl. auto.
  - intros H; inversion H; subst. repeat split; auto.
    destruct Hb as [Hb | [Hb | Hb]]; auto. congruence.
Qed.

Lemma url_parse_ok url r :
  url_parse url = Ok r ->
  exists proto rest rest',
    match_proto (url_prepare url) = Some (proto, rest)
    /\ protocol r = toLowerCase proto
    /\ split_path rest' = (pathname r, search r, query r, hash r).
Proof.
  unfold url_parse, toASCII.
  destruct (match_proto (url_prepare url)) as [[proto rest]|]; [|discriminate].
  destruct (special_protocol (toLowerCase proto)); [discriminate|].
  repeat match goal with
         | |- context [bind_result (Ok _) _] => cbn [bind_result]
         | |- context [bind_result (Throw _) _] => cbn [bind_result]
         | |- context [match ?x with _ => _ end] =>
             lazymatch x with
             | split_path _ => fail
             | _ => destruct x
             end
         | |- context [bind_result ?x _] => destruct x; simpl; [|discriminate]
         end;
  try (intros H; discriminate H);
  match goal with
  | |- context [split_path ?z] =>
      destruct (split_path z) as [[[pn srch] qry] hsh] eqn:E
  end;
  intros H; inversion H; subst; simpl; eauto 6.
Qed.

Lemma prefix_app_self a t : String.prefix a (a ++ t) = true.
Proof.
  induction a as [|c a IH]; simpl; [destruct t; reflexivity|].
  destruct (ascii_dec c c); [exact IH | contradiction].
Qed.

Lemma prefix_app a b : String.prefix a b = true -> exists t, b = a ++ t.
Proof.
  revert b. induction a as [|c a IH]; intros b H.
  - exists b. reflexivity.
  - destruct b as [|c' b]; simpl in H; [discriminate|].
    destruct (ascii_dec c c') as [<-|]; [|discriminate].
    destruct (IH b H) as [t ->]. exists t. reflexivity.
Qed.

(** [parseUrl] hands [url.parse] a string starting with [ws:] or [wss:]. *)
Lemma add_default_protocol_shape u :
  exists p t, add_default_protocol u = p ++ t /\ (p = "ws:" \/ p = "wss:").
Proof.
  unfold add_default_protocol, hasUrlProtocol.
  destruct (String.prefix "wss:" u) eqn:E1.
  - simpl. destruct (prefix_app _ _ E1) as [t ->].
    destruct (String.prefix "//" ("wss:" ++ t)) eqn:E2; [discriminate|].
    exists "wss:", t. auto.
  - destruct (String.prefix "ws:" u) eqn:E2; simpl.
    + destruct (prefix_app _ _ E2) as [t ->].
      destruct (String.prefix "//" ("ws:" ++ t)) eqn:E3; [discriminate|].
      exists "ws:", t. auto.
    + destruct (String.prefix "//" u) eqn:E3; simpl.
      * exists "ws:", u. auto.
      * exists "ws:", ("//" ++ u). auto.
Qed.

Lemma match_proto_ws p t :
  p = "ws:" \/ p = "wss:" ->
  exists rest, match_proto (url_prepare (p ++ t)) = Some (p, rest).
Proof.
  intros [-> | ->]; eexists; reflexivity.
Qed.

Lemma url_parse_protocol u r :
  url_parse (add_default_protocol u) = Ok r ->
  protocol r = "ws:" \/ protocol r = "wss:".
Proof.
  intros P.
  destruct (add_default_protocol_shape u) as [p [t [Ht Hp]]]. rewrite Ht in P.
  destruct (url_parse_ok _ _ P) as [proto [rest [rest' [Hm [Hpr _]]]]].
  destruct (match_proto_ws p t Hp) as [rest0 Hm0].
  rewrite Hm0 in Hm. inversion Hm; subst.
  destruct Hp as [-> | ->]; auto.
Qed.

Lemma escape_hash_in_search_id s :
  contains_char 35 s = false -> escape_hash_in_search s = s.
Proof.
  induction s as [|c s IH]; simpl; [reflexivity|].
  intros H. apply orb_false_iff in H as [H1 H2]. rewrite H1, IH; auto.
Qed.

Lemma escape_pathname_empty s : escape_pathname s = "" -> s = "".
Proof.
  destruct s as [|c s]; simpl; [auto|].
  destruct (char_is 35 c); [discriminate|].
  destruct (char_is 63 c); discriminate.
Qed.

(** C3 (counterexample): with the empty default path, [parseUrl]
    succeeds on [example.com] and returns [ws://example.com], whose parsed
    form has an empty path. *)
Lemma parseUrl_empty_path_counterexample :
  parseUrl "example.com" "" = Ok "ws://example.com"
  /\ url_parse "ws://example.com"
     = Ok {| protocol := "ws:"; slashes := true; auth := ""; host := "example.com";
             port := ""; hostname := "example.com"; hash := ""; search := "";
             query := ""; pathname := "" |}.
Proof. split; reflexivity. Qed.

Lemma url_format_ws (u : Url) :
  (protocol u = "ws:" \/ protocol u = "wss:") ->
  host u <> "" ->
  (search u = "" \/ starts_with_char 63 (search u) = true) ->
  contains_char 35 (search u) = false ->
  (hash u = "" \/ starts_with_char 35 (hash u) = true) ->
  url_format u =
    protocol u ++ (if slashes u then "//" else "")
    ++ (if String.eqb (auth u) "" then "" else encode_auth (auth u) ++ "@")
    ++ host u
    ++ (let pn := escape_pathname (pathname u) in
        if slashes u
        then (if negb (String.eqb pn "") && negb (starts_with_char 47 pn) then "/" ++ pn else pn)
        else pn)
    ++ search u ++ hash u.
Proof.
  destruct u as [pr sl au hs pt hn hh sr q pn]; simpl.
  intros Hp Hhs Hs1 Hs2 Hh.
  unfold url_format; simpl.
  rewrite (escape_hash_in_search_id _ Hs2).
  apply String.eqb_neq in Hhs. rewrite Hhs.
  destruct Hs1 as [-> | Hs1]; [|destruct sr as [|c sr]; [discriminate|]];
  (destruct Hh as [-> | Hh]; [|destruct hh as [|c' hh]; [discriminate|]]);
  simpl in *;
  repeat match goal with H : ?x = true |- context [?x] => rewrite H end;
  destruct Hp as [-> | ->]; destruct sl; simpl; rewrite ?str_app_assoc; reflexivity.
Qed.

(** C3 (amended): when [parseUrl] succeeds, the returned string is the
    URL [url.parse] reads from the scheme-prepended input, written out:
    the scheme [ws:] or [wss:], then (after [//] and the credentials when
    present) the parsed host, which is non-empty, then the path, then query
    and fragment.  The path is the input's own path, or the default path
    when the input has none, with [#] and [?] percent-escaped and, after
    [//], a [/] put in front when it has none; so the path is non-empty
    exactly when the input has a path or the default path is non-empty. *)
Theorem parseUrl_success_shape (u d s : string) (Hok : parseUrl u d = Ok s) :
  exists r,
    url_parse (add_default_protocol u) = Ok r
    /\ (protocol r = "ws:" \/ protocol r = "wss:")
    /\ host r <> ""
    /\ let pn := escape_pathname (if String.eqb (pathname r) "" then d else pathname r) in
       let pth := if slashes r
                  then (if negb (String.eqb pn "") && negb (starts_with_char 47 pn)
                        then "/" ++ pn else pn)
                  else pn in
       s = protocol r ++ (if slashes r then "//" else "")
           ++ (if String.eqb (auth r) "" then "" else encode_auth (auth r) ++ "@")
           ++ host r ++ pth ++ search r ++ hash r
       /\ (pth <> "" <-> pathname r <> "" \/ d <> "").
Proof.
  unfold parseUrl in Hok.
  destruct (unsupportedProtocol u); [discriminate|].
  destruct (url_parse (add_default_protocol u)) as [r|e] eqn:P; simpl in Hok; [|discriminate].
  destruct (String.eqb (host r) "") eqn:Eh; [discriminate|].
  inversion Hok; subst s; clear Hok.
  pose proof (url_parse_protocol _ _ P) as Hp.
  destruct (url_parse_ok _ _ P) as [proto [rest [rest' [_ [_ Hsp]]]]].
  destruct (split_path_props _ _ _ _ _ Hsp) as [Hs1 [Hs2 Hh]].
  apply String.eqb_neq in Eh.
  exists r. split; [reflexivity|]. split; [exact Hp|]. split; [exact Eh|].
  cbv zeta.
  set (pn := escape_pathname (if String.eqb (pathname r) "" then d else pathname r)).
  assert (Hpn : pn <> "" <-> pathname r <> "" \/ d <> "").
  { unfold pn. split.
    - intros Hne. destruct (String.eqb (pathname r) "") eqn:E.
      + right. intros ->. apply Hne. reflexivity.
      + left. apply String.eqb_neq. exact E.
    - intros Hne Hpe. apply escape_pathname_empty in Hpe.
      destruct (String.eqb (pathname r) "") eqn:E.
      + apply String.eqb_eq in E. destruct Hne; contradiction.
      + apply String.eqb_neq in E. contradiction. }
  split.
  - rewrite url_format_ws; simpl; auto.
    + destruct Hp as [-> | ->]; reflexivity.
    + destruct Hp as [-> | ->]; auto.
  - rewrite <- Hpn. destruct (slashes r); [|reflexivity].
    destruct (String.eqb pn "") eqn:E; simpl.
    + apply String.eqb_eq in E. rewrite E. reflexivity.
    + apply String.eqb_neq in E.
      destruct (negb (starts_with_char 47 pn)); split; intros _; auto; discriminate.
Qed.

Lemma parseUrl_success_shape_witness :
  parseUrl "example.com" "" = Ok "ws://example.com" /\
  exists r,
    url_parse (add_default_protocol "example.com") = Ok r
    /\ (protocol r = "ws:" \/ protocol r = "wss:")
    /\ host r <> ""
    /\ let pn := escape_pathname (if String.eqb (pathname r) "" then "" else pathname r) in
       let pth := if slashes r
                  then (if negb (String.eqb pn "") && negb (starts_with_char 47 pn)
                        then "/" ++ pn else pn)
                  else pn in
       "ws://example.com" = protocol r ++ (if slashes r then "//" else "")
           ++ (if String.eqb (auth r) "" then "" else encode_auth (auth r) ++ "@")
           ++ host r ++ pth ++ search r ++ hash r
       /\ (pth <> "" <-> pathname r <> "" \/ "" <> "").
Proof.
  assert (H : parseUrl "example.com" "" = Ok "ws://example.com") by reflexivity.
  split; [exact H | exact (parseUrl_success_shape "example.com" "" "ws://example.com" H)].
Defined.

(** C5: schemeless inputs get the insecure scheme: an input that starts
    with neither [http:], [https:], [ws:], [wss:] nor [//] is treated as
    the same input with [ws://] in front; an input starting with [//] as
    the same input with only [ws:] in front, which keeps its double slash.
    So [parseUrl("example.com", "/socket")] and
    [parseUrl("//example.com", "/socket")] are both
    ["ws://example.com/socket"]. *)
Theorem parseUrl_default_scheme :
  (forall u d, unsupportedProtocol u = false -> hasUrlProtocol u = false ->
     add_default_protocol u = "ws://" ++ u /\ parseUrl u d = parseUrl ("ws://" ++ u) d)
  /\ (forall u d, String.prefix "//" u = true ->
     add_default_protocol u = "ws:" ++ u /\ parseUrl u d = parseUrl ("ws:" ++ u) d)
  /\ parseUrl "example.com" "/socket" = Ok "ws://example.com/socket"
  /\ parseUrl "//example.com" "/socket" = Ok "ws://example.com/socket".
Proof.
  split; [|split; [|split; reflexivity]].
  - intros u d Hu Hh.
    assert (Ha : add_default_protocol u = "ws://" ++ u)
      by (unfold add_default_protocol; rewrite Hh; reflexivity).
    split; [exact Ha|].
    unfold parseUrl. rewrite Hu, Ha. reflexivity.
  - intros u d Hp.
    assert (Ha : add_default_protocol u = "ws:" ++ u)
      by (unfold add_default_protocol, hasUrlProtocol; rewrite Hp, !orb_true_r; reflexivity).
    assert (Hu : unsupportedProtocol u = false)
      by (destruct (prefix_app _ _ Hp) as [t ->]; reflexivity).
    assert (Hw : add_default_protocol ("ws:" ++ u) = "ws:" ++ u)
      by (unfold add_default_protocol, hasUrlProtocol; rewrite (prefix_app_self "ws:" u); reflexivity).
    split; [exact Ha|].
    unfold parseUrl. rewrite Hu, Ha, Hw. reflexivity.
Qed.

(* ------------------------------------------------------------------ *)
(** ** [url.parse] on canonical URLs *)

Ltac ascii_cases c := destruct c as [[] [] [] [] [] [] [] []].

Lemma all_chars_app p a b : all_chars p (a ++ b) = all_chars p a && all_chars p b.
Proof. induction a as [|c a IH]; simpl; [reflexivity|]. rewrite IH, andb_assoc. reflexivity. Qed.

Lemma all_chars_impl (p q : ascii -> bool) s :
  (forall c, implb (p c) (q c) = true) -> all_chars p s = true -> all_chars q s = true.
Proof.
  intros Hpq. induction s as [|c s IH]; simpl; [auto|].
  intros H. apply andb_true_iff in H as [H1 H2].
  specialize (Hpq c). rewrite H1 in Hpq. simpl in Hpq. rewrite Hpq, IH; auto.
Qed.

Lemma rtrim_id s : all_chars (fun c => negb (is_url_ws c)) s = true -> rtrim s = s.
Proof.
  induction s as [|c s IH]; simpl; [auto|].
  intros H. apply andb_true_iff in H as [H1 H2]. apply negb_true_iff in H1.
  rewrite H1, IH; auto.
Qed.

Lemma convert_backslashes_id s :
  all_chars (fun c => negb (char_is 92 c)) s = true -> convert_backslashes s = s.
Proof.
  induction s as [|c s IH]; simpl; [auto|].
  intros H. apply andb_true_iff in H as [H1 H2]. apply negb_true_iff in H1.
  rewrite H1, IH; auto. destruct (char_is 63 c || char_is 35 c); auto.
Qed.

Lemma substring_prefix a b : substring 0 (String.length a) (a ++ b) = a.
Proof. induction a as [|c a IH]; simpl; [destruct b; reflexivity|]. rewrite IH. reflexivity. Qed.

Lemma substring_suffix a b :
  substring (String.length a) (String.length (a ++ b) - String.length a) (a ++ b) = b.
Proof.
  rewrite str_length_app. replace (String.length a + String.length b - String.length a)
    with (String.length b) by lia.
  induction a as [|c a IH]; simpl.
  - induction b as [|c b IH]; simpl; [reflexivity|]. rewrite IH. reflexivity.
  - exact IH.
Qed.

(** Characters that the host scan passes over. *)
Definition host_plain (c : ascii) : bool :=
  negb (is_non_host_char c || is_host_end_char c || char_is 64 c).

Lemma host_scan_plain a b i at0 :
  all_chars host_plain a = true ->
  host_scan (a ++ String "/" b) i at0 None = (at0, Some (i + String.length a)).
Proof.
  revert i. induction a as [|c a IH]; intros i H; simpl.
  - rewrite Nat.add_0_r. reflexivity.
  - simpl in H. apply andb_true_iff in H as [H1 H2].
    unfold host_plain in H1. apply negb_true_iff in H1.
    apply orb_false_iff in H1 as [H1 H3]. apply orb_false_iff in H1 as [H1 H4].
    rewrite H1, H4, H3, IH by exact H2. f_equal. f_equal. lia.
Qed.

Lemma port_split_none s : all_chars (fun c => negb (char_is 58 c)) s = true -> port_split s = None.
Proof.
  induction s as [|c s IH]; simpl; [auto|].
  intros H. apply andb_true_iff in H as [H1 H2]. apply negb_true_iff in H1.
  rewrite H1, IH; auto.
Qed.

Lemma port_split_some a d :
  all_chars (fun c => negb (char_is 58 c)) a = true -> all_chars is_digit d = true ->
  port_split (a ++ String ":" d) = Some (a, d).
Proof.
  intros Ha Hd. induction a as [|c a IH]; simpl.
  - rewrite Hd. reflexivity.
  - simpl in Ha. apply andb_true_iff in Ha as [H1 H2]. apply negb_true_iff in H1.
    rewrite H1, IH; auto.
Qed.

Lemma validate_hostname_none h : all_chars is_valid_host_char h = true -> validate_hostname h = None.
Proof.
  induction h as [|c h IH]; simpl; [auto|].
  intros H. apply andb_true_iff in H as [H1 H2]. rewrite H1, IH; auto.
Qed.

Lemma toLowerCase_id h : all_chars ldh_char h = true -> toLowerCase h = h.
Proof.
  induction h as [|c h IH]; simpl; [auto|].
  intros H. apply andb_true_iff in H as [H1 H2]. rewrite IH by exact H2.
  f_equal. revert H1. ascii_cases c; try reflexivity; discriminate.
Qed.

Lemma autoEscapeStr_id s : all_chars (fun c => negb (is_auto_escape c)) s = true -> autoEscapeStr s = s.
Proof.
  induction s as [|c s IH]; simpl; [auto|].
  intros H. apply andb_true_iff in H as [H1 H2]. apply negb_true_iff in H1.
  rewrite H1, IH; auto.
Qed.

Lemma split_qh_none s :
  all_chars (fun c => negb (char_is 63 c || char_is 35 c)) s = true -> split_qh s = (s, "").
Proof.
  induction s as [|c s IH]; simpl; [auto|].
  intros H. apply andb_true_iff in H as [H1 H2]. apply negb_true_iff in H1.
  rewrite H1, IH; auto.
Qed.

Lemma escape_pathname_id s :
  all_chars (fun c => negb (char_is 63 c || char_is 35 c)) s = true -> escape_pathname s = s.
Proof.
  induction s as [|c s IH]; simpl; [auto|].
  intros H. apply andb_true_iff in H as [H1 H2]. apply negb_true_iff in H1.
  apply orb_false_iff in H1 as [H1 H3]. rewrite H1, H3, IH; auto.
Qed.

Lemma ldh_implies (q : ascii -> bool) :
  (forall c, implb (ldh_char c) (q c) = true) ->
  forall s, all_chars ldh_char s = true -> all_chars q s = true.
Proof. intros H s. apply all_chars_impl. exact H. Qed.

Lemma slice_from_0 s : slice_from s 0 = s.
Proof.
  unfold slice_from. rewrite Nat.sub_0_r.
  induction s as [|c s IH]; simpl; [reflexivity|]. rewrite IH. reflexivity.
Qed.

Lemma host_scan_plain_end a i at0 :
  all_chars host_plain a = true -> host_scan a i at0 None = (at0, None).
Proof.
  revert i. induction a as [|c a IH]; intros i H; simpl; [reflexivity|].
  simpl in H. apply andb_true_iff in H as [H1 H2].
  unfold host_plain in H1. apply negb_true_iff in H1.
  apply orb_false_iff in H1 as [H1 H3]. apply orb_false_iff in H1 as [H1 H4].
  rewrite H1, H4, H3. apply IH. exact H2.
Qed.

Lemma toLowerCase_host_name h : all_chars host_name_char h = true -> all_chars ldh_char (toLowerCase h) = true.
Proof.
  induction h as [|c h IH]; simpl; [auto|].
  intros H. apply andb_true_iff in H as [H1 H2]. rewrite IH by exact H2.
  revert H1. ascii_cases c; try reflexivity; discriminate.
Qed.

Lemma toLowerCase_length h : String.length (toLowerCase h) = String.length h.
Proof. induction h as [|c h IH]; simpl; congruence. Qed.

Lemma toASCII_ldh h : all_chars ldh_char h = true -> has_xn_label h = false -> toASCII h = Ok h.
Proof.
  intros Hl Hx. unfold toASCII. rewrite Hx.
  rewrite (all_chars_impl ldh_char is_ascii_char); [reflexivity| |exact Hl].
  intros c; ascii_cases c; reflexivity.
Qed.

(** [url.parse] of [scheme//host[:port]] followed by nothing or by a path
    of plain characters. *)
Lemma url_parse_host_tail scheme hn prt tail
  (Hs : scheme = "ws:" \/ scheme = "wss:")
  (Hhn : hn <> "") (Hl : all_chars host_name_char hn = true) (Hlen : String.length hn <= 255)
  (Hxn : has_xn_label (toLowerCase hn) = false)
  (Hp : all_chars is_digit prt = true)
  (Ht : tail = "" \/ exists pth, tail = "/" ++ pth /\ all_chars path_char pth = true) :
  url_parse (scheme ++ "//" ++ hn ++ (if String.eqb prt "" then "" else ":" ++ prt) ++ tail)
  = Ok {| protocol := scheme; slashes := true; auth := "";
          host := toLowerCase hn ++ (if String.eqb prt "" then "" else ":" ++ prt);
          port := prt; hostname := toLowerCase hn; hash := ""; search := ""; query := "";
          pathname := tail |}.
Proof.
  set (pp := if String.eqb prt "" then "" else ":" ++ prt).
  set (X := hn ++ pp ++ tail).
  assert (Htc : forall q : ascii -> bool,
            (forall c, implb (path_char c) (q c) = true) -> q "/"%char = true ->
            all_chars q tail = true).
  { intros q H3 H5. destruct Ht as [-> | (pth & -> & Hpth)]; [reflexivity|].
    simpl. rewrite H5. apply (all_chars_impl path_char); auto. }
  assert (HX : forall q : ascii -> bool,
            (forall c, implb (host_name_char c) (q c) = true) ->
            (forall c, implb (is_digit c) (q c) = true) ->
            (forall c, implb (path_char c) (q c) = true) ->
            q ":"%char = true -> q "/"%char = true ->
            all_chars q X = true).
  { intros q H1 H2 H3 H4 H5. unfold X, pp.
    rewrite !all_chars_app. apply andb_true_iff; split; [apply (all_chars_impl host_name_char); auto|].
    apply andb_true_iff; split.
    - destruct (String.eqb prt ""); [reflexivity|]. simpl. rewrite H4.
      apply (all_chars_impl is_digit); auto.
    - apply Htc; auto. }
  assert (Hprep : url_prepare (scheme ++ "//" ++ X) = scheme ++ "//" ++ X).
  { unfold url_prepare.
    destruct Hs as [-> | ->]; simpl;
      (rewrite (rtrim_id X), (convert_backslashes_id X);
       [reflexivity | apply HX; try reflexivity; intros c; ascii_cases c; reflexivity
                    | apply HX; try reflexivity; intros c; ascii_cases c; reflexivity]). }
  assert (Hproto : match_proto (scheme ++ "//" ++ X) = Some (scheme, "//" ++ X)).
  { destruct Hs as [-> | ->]; reflexivity. }
  assert (Hlow : toLowerCase scheme = scheme /\ special_protocol scheme = false).
  { destruct Hs as [-> | ->]; split; reflexivity. }
  destruct Hlow as [Hlow Hspec].
  assert (Hsl : slice_from ("//" ++ X) 2 = X).
  { unfold slice_from. simpl. rewrite Nat.sub_0_r.
    rewrite <- (str_app_nil_r X) at 2. rewrite substring_prefix. reflexivity. }
  assert (Hplain : all_chars host_plain (hn ++ pp) = true).
  { rewrite all_chars_app. apply andb_true_iff. split.
    - apply (all_chars_impl host_name_char); auto. intros c; ascii_cases c; reflexivity.
    - unfold pp. destruct (String.eqb prt ""); [reflexivity|]. simpl.
      apply (all_chars_impl is_digit); auto. intros c; ascii_cases c; reflexivity. }
  assert (Hnocolon : all_chars (fun c => negb (char_is 58 c)) hn = true).
  { apply (all_chars_impl host_name_char); auto. intros c; ascii_cases c; reflexivity. }
  assert (Hph : parse_host (hn ++ pp) = (hn, prt)).
  { unfold parse_host, pp. destruct (String.eqb prt "") eqn:Ep.
    - apply String.eqb_eq in Ep. subst prt. rewrite str_app_nil_r, port_split_none; auto.
    - change (":" ++ prt) with (String ":" prt). rewrite port_split_some; auto. }
  assert (Hip : is_ipv6_hostname hn = false).
  { destruct hn as [|c hn']; [contradiction|]. simpl in Hl.
    apply andb_true_iff in Hl as [Hc _]. unfold is_ipv6_hostname.
    destruct (last_char (String c hn')); [|reflexivity].
    revert Hc. ascii_cases c; try discriminate; reflexivity. }
  assert (Hval : validate_hostname hn = None).
  { apply validate_hostname_none. apply (all_chars_impl host_name_char); auto.
    intros c; ascii_cases c; reflexivity. }
  assert (Hlen' : (255 <? String.length hn) = false) by (apply Nat.ltb_ge; lia).
  assert (Hasc : toASCII (toLowerCase hn) = Ok (toLowerCase hn)).
  { apply toASCII_ldh; [apply toLowerCase_host_name; exact Hl | exact Hxn]. }
  assert (Hesc : autoEscapeStr tail = tail).
  { apply autoEscapeStr_id. apply Htc; [intros c; ascii_cases c; reflexivity | reflexivity]. }
  assert (Hsplit : split_path tail = (tail, "", "", "")).
  { destruct Ht as [-> | (pth & -> & Hpth)]; [reflexivity|].
    unfold split_path. rewrite split_qh_none; [reflexivity|].
    simpl. apply (all_chars_impl path_char); auto. intros c; ascii_cases c; reflexivity. }
  fold X. unfold url_parse. rewrite Hprep, Hproto. cbv beta iota zeta. rewrite Hlow, Hspec.
  rewrite prefix_app_self. cbv beta iota zeta. rewrite Hsl.
  destruct Ht as [Ht0 | (pth & Ht0 & Hpth)].
  - assert (HXe : X = hn ++ pp) by (unfold X; rewrite Ht0, str_app_nil_r; reflexivity).
    assert (Hscan : host_scan X 0 None None = (None, None)).
    { rewrite HXe. apply host_scan_plain_end. exact Hplain. }
    rewrite Hscan. cbv beta iota zeta. simpl bind_result.
    rewrite slice_from_0, HXe, Hph. cbv beta iota zeta.
    rewrite Hip, Hval, Hlen'. cbv beta iota zeta. rewrite Hasc. cbn [bind_result].
    rewrite Ht0. reflexivity.
  - assert (HXe : X = (hn ++ pp) ++ String "/" pth).
    { unfold X. rewrite Ht0, str_app_assoc. reflexivity. }
    assert (Hscan : host_scan X 0 None None = (None, Some (String.length (hn ++ pp)))).
    { rewrite HXe. apply host_scan_plain. exact Hplain. }
    assert (Hslice1 : slice X 0 (String.length (hn ++ pp)) = hn ++ pp).
    { unfold slice. rewrite Nat.sub_0_r, HXe. apply substring_prefix. }
    assert (Hslice2 : slice_from X (String.length (hn ++ pp)) = tail).
    { unfold slice_from. rewrite HXe, Ht0. apply substring_suffix. }
    rewrite Hscan. cbv beta iota zeta. simpl bind_result.
    rewrite Hslice1, Hslice2, Hph. cbv beta iota zeta.
    rewrite Hip, Hval, Hlen'. cbv beta iota zeta. rewrite Hasc. cbn [bind_result].
    rewrite Hesc, Hsplit. reflexivity.
Qed.

Lemma parseUrl_host_tail scheme hn prt tail d
  (Hs : scheme = "ws:" \/ scheme = "wss:")
  (Hhn : hn <> "") (Hl : all_chars host_name_char hn = true) (Hlen : String.length hn <= 255)
  (Hxn : has_xn_label (toLowerCase hn) = false)
  (Hp : all_chars is_digit prt = true)
  (Ht : tail = "" \/ exists pth, tail = "/" ++ pth /\ all_chars path_char pth = true) :
  parseUrl (scheme ++ "//" ++ hn ++ (if String.eqb prt "" then "" else ":" ++ prt) ++ tail) d
  = Ok (scheme ++ "//" ++ toLowerCase hn ++ (if String.eqb prt "" then "" else ":" ++ prt)
        ++ (if String.eqb tail "" then
              let pn := escape_pathname d in
              if negb (String.eqb pn "") && negb (starts_with_char 47 pn) then "/" ++ pn else pn
            else tail)).
Proof.
  assert (Hunsup : unsupportedProtocol (scheme ++ "//" ++ hn ++ (if String.eqb prt "" then "" else ":" ++ prt) ++ tail) = false)
    by (destruct Hs as [-> | ->]; reflexivity).
  assert (Hadd : add_default_protocol (scheme ++ "//" ++ hn ++ (if String.eqb prt "" then "" else ":" ++ prt) ++ tail)
                 = scheme ++ "//" ++ hn ++ (if String.eqb prt "" then "" else ":" ++ prt) ++ tail)
    by (destruct Hs as [-> | ->]; reflexivity).
  unfold parseUrl. rewrite Hunsup, Hadd, url_parse_host_tail by assumption.
  cbn [bind_result host protocol pathname].
  assert (Hne : toLowerCase hn <> "")
    by (intros E; apply Hhn; destruct hn; [reflexivity | discriminate E]).
  assert (Hhost : String.eqb (toLowerCase hn ++ (if String.eqb prt "" then "" else ":" ++ prt)) "" = false).
  { destruct (toLowerCase hn); [contradiction | reflexivity]. }
  rewrite Hhost.
  assert (Hsch : String.eqb scheme "" = false) by (destruct Hs as [-> | ->]; reflexivity).
  rewrite Hsch. cbv iota.
  rewrite url_format_ws; simpl; auto.
  - destruct Ht as [-> | (pth & -> & Hpth)]; simpl.
    + rewrite !str_app_nil_r, !str_app_assoc. reflexivity.
    + rewrite escape_pathname_id.
      * rewrite !str_app_nil_r, !str_app_assoc. reflexivity.
      * apply (all_chars_impl path_char); auto. intros c; ascii_cases c; reflexivity.
  - destruct (toLowerCase hn); [contradiction | discriminate].
Qed.

(** C4 (counterexample): a canonical URL whose host name has an upper
    case letter is not returned unchanged: [url.parse] lower-cases host
    names. *)
Lemma parseUrl_not_idempotent_counterexample :
  parseUrl "ws://Example.com/custom" "/socket" = Ok "ws://example.com/custom"
  /\ "ws://example.com/custom" <> "ws://Example.com/custom".
Proof. split; [reflexivity | discriminate]. Qed.

(** C4 (amended): for every default path, [parseUrl] returns a URL of the
    canonical form [scheme//host[:port]/path] with its host name
    lower-cased and everything else kept, when the scheme is [ws:] or
    [wss:], the host name is non-empty, at most 255 characters long, made
    of letters, digits, dots and hyphens and (lower-cased) has no label
    starting with [xn--], the port is absent or numeric, and the path
    contains no white space, no [?], no [#] and no character that
    [url.parse] percent-escapes.  So such a URL whose host name is in
    lower case is returned unchanged: the explicit path is kept, not
    replaced by the default path. *)
Theorem parseUrl_canonical_unchanged (scheme hn prt pth d : string)
  (Hs : scheme = "ws:" \/ scheme = "wss:")
  (Hhn : 0 < String.length hn) (Hl : all_chars host_name_char hn = true)
  (Hlen : String.length hn <= 255) (Hxn : has_xn_label (toLowerCase hn) = false)
  (Hp : all_chars is_digit prt = true) (Hpth : all_chars path_char pth = true) :
  parseUrl (canonical_url scheme hn prt pth) d = Ok (canonical_url scheme (toLowerCase hn) prt pth)
  /\ (all_chars ldh_char hn = true ->
      parseUrl (canonical_url scheme hn prt pth) d = Ok (canonical_url scheme hn prt pth)).
Proof.
  assert (Hhn' : hn <> "") by (intros ->; simpl in Hhn; lia).
  assert (E : parseUrl (canonical_url scheme hn prt pth) d
              = Ok (canonical_url scheme (toLowerCase hn) prt pth)).
  { unfold canonical_url.
    rewrite (parseUrl_host_tail scheme hn prt ("/" ++ pth) d); auto.
    right. exists pth. auto. }
  split; [exact E|].
  intros Hldh. rewrite E, toLowerCase_id by exact Hldh. reflexivity.
Qed.

Lemma parseUrl_canonical_unchanged_witness :
  parseUrl (canonical_url "ws:" "example.com" "9000" "custom") "/socket"
  = Ok (canonical_url "ws:" "example.com" "9000" "custom")
  /\ canonical_url "ws:" "example.com" "9000" "custom" = "ws://example.com:9000/custom"
  /\ parseUrl (canonical_url "wss:" "Example.COM" "" "a/b") "/socket"
     = Ok (canonical_url "wss:" (toLowerCase "Example.COM") "" "a/b")
  /\ canonical_url "wss:" (toLowerCase "Example.COM") "" "a/b" = "wss://example.com/a/b".
Proof.
  split; [|split; [reflexivity | split; [|reflexivity]]].
  - apply (parseUrl_canonical_unchanged "ws:" "example.com" "9000" "custom" "/socket");
      [left; reflexivity | simpl; lia | reflexivity | simpl; lia | reflexivity
      | reflexivity | reflexivity | reflexivity].
  - apply (parseUrl_canonical_unchanged "wss:" "Example.COM" "" "a/b" "/socket");
      [right; reflexivity | simpl; lia | reflexivity | simpl; lia | reflexivity
      | reflexivity | reflexivity].
Defined.




(* ------------------------------------------------------------------ *)
(** ** JSON serialisation and the copying helpers *)

(** Induction on [json] with a hypothesis for every child. *)

Section json_ind'.
Variable P : json -> Prop.
Hypothesis Hnull : P JNull.
Hypothesis Hbool : forall b, P (JBool b).
Hypothesis Hnum : forall n, P (JNum n).
Hypothesis Hstr : forall s, P (JStr s).
Hypothesis Harr : forall ts, Forall P ts -> P (JArr ts).
Hypothesis Hobj : forall ms, Forall (fun m => P (snd m)) ms -> P (JObj ms).

Fixpoint json_ind' (t : json) : P t :=
  match t with
  | JNull => Hnull
  | JBool b => Hbool b
  | JNum n => Hnum n
  | JStr s => Hstr s
  | JArr ts =>
      Harr ts ((fix go (ts : list json) : Forall P ts :=
                  match ts with
                  | [] => Forall_nil _
                  | t :: ts' => Forall_cons _ (json_ind' t) (go ts')
                  end) ts)
  | JObj ms =>
      Hobj ms ((fix go (ms : list (string * json)) : Forall (fun m => P (snd m)) ms :=
                  match ms with
                  | [] => Forall_nil _
                  | m :: ms' => Forall_cons _ (json_ind' (snd m)) (go ms')
                  end) ms)
  end.
End json_ind'.

Lemma Forall2_Forall_r {A B} (R : A -> B -> Prop) (P : B -> Prop) (R' : A -> B -> Prop) xs ys :
  Forall P ys -> Forall2 R xs ys -> (forall x y, P y -> R x y -> R' x y) -> Forall2 R' xs ys.
Proof.
  intros HP H2 Himp. induction H2; constructor; inversion HP; subst; eauto.
Qed.

Lemma deref_app h e l o : deref h l = Some o -> deref (h ++ e)%list l = Some o.
Proof.
  unfold deref. intros H. rewrite nth_error_app1; auto.
  apply nth_error_Some. congruence.
Qed.

Lemma reps_mono t : forall h e stack v, reps h stack v t -> reps (h ++ e)%list stack v t.
Proof.
  induction t as [| b | n | s | ts IH | ms IH] using json_ind'; intros h e stack v Hr;
    inversion Hr; subst; try (constructor; assumption).
  - eapply reps_arr; eauto using deref_app.
    eapply Forall2_Forall_r; eauto.
  - eapply reps_obj; eauto using deref_app.
    eapply Forall2_Forall_r with (P := fun m => forall h e stack v, reps h stack v (snd m) -> reps (h ++ e)%list stack v (snd m));
      eauto.
Qed.

Lemma typeof_reps h stack v t : reps h stack v t ->
  typeof h v = match t with
               | JBool _ => "boolean" | JNum _ => "number" | JStr _ => "string"
               | _ => "object" end.
Proof. intros Hr; inversion Hr; subst; simpl; try reflexivity; rewrite H; reflexivity. Qed.

Lemma callable_reps h stack v t : reps h stack v t -> callable h v = false.
Proof. intros Hr; inversion Hr; subst; simpl; try reflexivity; rewrite H; reflexivity. Qed.

Lemma reps_wf t : forall h stack v, reps h stack v t -> json_wf t.
Proof.
  induction t as [| b | n | s | ts IH | ms IH] using json_ind'; intros h stack v Hr.
  - constructor.
  - constructor.
  - inversion Hr; subst. constructor; auto.
  - constructor.
  - inversion Hr as [| | | | ? l vs ? Hd Hn H2 | ]; subst. constructor.
    clear -IH H2. induction H2; inversion IH; subst; constructor; eauto.
  - inversion Hr as [| | | | | ? l ps ? Hd Hn Hk Hkeys H2]; subst. constructor.
    + rewrite <- Hkeys; auto.
    + clear -IH H2. induction H2; inversion IH; subst; constructor; eauto.
Qed.

Lemma own_prop_in ps k v : own_prop ps k = Some v -> In (k, v) ps.
Proof.
  induction ps as [|[k' v'] ps IH]; simpl; [discriminate|].
  destruct (String.eqb_spec k' k); intros H; [inversion H; subst; auto | auto].
Qed.

Lemma Forall2_in_l {A B} (R : A -> B -> Prop) xs ys x :
  Forall2 R xs ys -> In x xs -> exists y, In y ys /\ R x y.
Proof.
  induction 1; simpl; [tauto|]. intros [<-|Hin]; [eauto|].
  destruct (IHForall2 Hin) as (y' & ? & ?); eauto.
Qed.

Lemma Forall2_keys {A B} (R : (string * A) -> (string * B) -> Prop) ps ms :
  map fst ps = map fst ms -> Forall2 R ps ms ->
  Forall2 (fun p m => fst p = fst m /\ R p m) ps ms.
Proof.
  intros Hk H2. induction H2; constructor; simpl in Hk; inversion Hk; auto.
Qed.

Lemma existsb_not_in l stack : ~ In l stack -> existsb (Nat.eqb l) stack = false.
Proof.
  intros Hn. apply not_true_iff_false. intros Hex.
  apply existsb_exists in Hex as (x & Hx & Heq). apply Nat.eqb_eq in Heq; subst; auto.
Qed.

Lemma stack_bound (n : nat) stack :
  NoDup stack -> Forall (fun l => l < n) stack -> length stack <= n.
Proof.
  intros Hnd Hlt. rewrite <- (length_seq n 0). apply NoDup_incl_length; auto.
  intros x Hx. apply in_seq. rewrite Forall_forall in Hlt. specialize (Hlt x Hx). lia.
Qed.

Lemma deref_lt h l o : deref h l = Some o -> l < length h.
Proof. unfold deref. intros H. apply nth_error_Some. congruence. Qed.

Lemma concat_singletons {A B} (f : A -> B) l : concat (map (fun x => [f x]) l) = map f l.
Proof. induction l; simpl; congruence. Qed.

Lemma serialize_reps t : forall h stack v fuel,
  reps h stack v t -> NoDup stack -> Forall (fun l => l < length h) stack ->
  length h < fuel + length stack ->
  serialize fuel h stack v = Ok (Some (print_json t)).
Proof.
  induction t as [| b | n | s | ts IH | ms IH] using json_ind';
    intros h stack v fuel Hr Hnd Hlt Hfuel.
  - inversion Hr; subst. destruct fuel; reflexivity.
  - inversion Hr; subst. destruct fuel; reflexivity.
  - inversion Hr as [| | ? ? Hs | | |]; subst.
    destruct fuel; simpl; apply Z.leb_le in Hs; rewrite Hs; reflexivity.
  - inversion Hr; subst. destruct fuel; reflexivity.
  - inversion Hr as [| | | | ? l vs ? Hd Hn H2 | ]; subst.
    assert (Hl : l < length h) by (eapply deref_lt; eauto).
    assert (Hb : length (l :: stack) <= length h)
      by (apply stack_bound; constructor; auto).
    simpl in Hb.
    destruct fuel as [|f]; [lia|].
    simpl. rewrite Hd. simpl. rewrite existsb_not_in by auto.
    assert (Hm : map_result (fun e =>
                   let* r := serialize f h (l :: stack) e in
                   Ok (match r with Some s => s | None => "null" end)) vs
                 = Ok (map print_json ts)).
    { clear -IH H2 Hnd Hn Hlt Hl Hfuel.
      induction H2 as [|v t vs ts Hvt H2 IH2]; [reflexivity|].
      inversion IH as [|? ? IHt IHts]; subst. simpl.
      rewrite (IHt h (l :: stack) v f); auto.
      - simpl. rewrite IH2; auto.
      - constructor; auto.
      - simpl. lia. }
    rewrite Hm. reflexivity.
  - inversion Hr as [| | | | | ? l ps ? Hd Hn Hk Hkeys H2]; subst.
    assert (Hl : l < length h) by (eapply deref_lt; eauto).
    assert (Hb : length (l :: stack) <= length h)
      by (apply stack_bound; constructor; auto).
    simpl in Hb.
    destruct fuel as [|f]; [lia|].
    assert (Ht : has_toJSON h (OPlain ps) = false).
    { simpl. destruct (own_prop ps "toJSON") as [w|] eqn:E; [|reflexivity].
      apply own_prop_in in E. destruct (Forall2_in_l _ _ _ _ H2 E) as (m & _ & Hm).
      eapply callable_reps; eauto. }
    cbn -[QuoteJSONString has_toJSON]. rewrite Hd. rewrite Ht. rewrite existsb_not_in by auto.
    apply Forall2_keys in H2; auto.
    assert (Hm : map_result (fun p =>
                   let* r := serialize f h (l :: stack) (snd p) in
                   Ok (match r with
                       | Some s => [QuoteJSONString (fst p) ++ String ":" s]
                       | None => []
                       end)) ps
                 = Ok (map (fun m => [QuoteJSONString (fst m) ++ String ":" (print_json (snd m))]) ms)).
    { clear -IH H2 Hnd Hn Hlt Hl Hfuel.
      induction H2 as [|p m ps ms [Hpk Hpm] H2 IH2]; [reflexivity|].
      inversion IH as [|? ? IHt IHts]; subst. cbn [map_result].
      rewrite (IHt h (l :: stack) (snd p) f); auto.
      - cbn [bind_result]. rewrite IH2; auto. rewrite Hpk. reflexivity.
      - constructor; auto.
      - simpl. lia. }
    rewrite Hm. cbn -[QuoteJSONString]. rewrite concat_singletons. reflexivity.
Qed.

(** *** Property order of the objects built by [obj_set] *)

Lemma index_keys_sorted_app_l prev l1 l2 :
  index_keys_sorted prev (l1 ++ l2) = true -> index_keys_sorted prev l1 = true.
Proof.
  revert prev. induction l1 as [|k l1 IH]; intros prev H; [reflexivity|].
  simpl in *. destruct (array_index k) as [i|].
  - apply andb_prop in H as [H1 H2]. rewrite H1, (IH _ H2). reflexivity.
  - rewrite forallb_app in H. apply andb_prop in H as [H1 _]. exact H1.
Qed.

Lemma keys_ok_app_l l1 l2 : keys_ok (l1 ++ l2) -> keys_ok l1.
Proof.
  intros [Hnd Hs]. split; [eapply NoDup_app_remove_r; eauto | eapply index_keys_sorted_app_l; eauto].
Qed.

Lemma non_index_last l k :
  forallb (fun k' => match array_index k' with Some _ => false | None => true end) (l ++ [k]) = true ->
  array_index k = None.
Proof.
  rewrite forallb_app. simpl. destruct (array_index k); auto.
  rewrite andb_false_r. discriminate.
Qed.

Lemma sorted_last_lt j l k i :
  index_keys_sorted (Some j) (l ++ [k]) = true -> array_index k = Some i -> (j < i)%N.
Proof.
  revert j. induction l as [|k' l IH]; intros j H Hk; simpl in H.
  - rewrite Hk in H. apply andb_prop in H as [H _]. apply N.ltb_lt; auto.
  - destruct (array_index k') as [j'|] eqn:E.
    + apply andb_prop in H as [H1 H2]. apply N.ltb_lt in H1.
      specialize (IH j' H2 Hk). lia.
    + apply non_index_last in H. congruence.
Qed.

Lemma insert_end prev acc k i v :
  index_keys_sorted prev (map fst acc ++ [k]) = true -> array_index k = Some i ->
  insert_index k i v acc = (acc ++ [(k, v)])%list.
Proof.
  revert prev. induction acc as [|[k' v'] acc IH]; intros prev H Hk; [reflexivity|].
  simpl in H |- *. destruct (array_index k') as [j|] eqn:E.
  - apply andb_prop in H as [_ H2].
    assert (Hlt : (j < i)%N) by (eapply sorted_last_lt; eauto).
    replace (i <? j)%N with false by (symmetry; apply N.ltb_ge; lia).
    rewrite (IH (Some j)); auto.
  - apply non_index_last in H. congruence.
Qed.

Lemma nodup_last_not_in (l : list string) k : NoDup (l ++ [k]) -> ~ In k l.
Proof.
  intros H Hin. apply (NoDup_remove_2 l [] k) in H. apply H. rewrite app_nil_r. exact Hin.
Qed.

Lemma has_key_false ps k : ~ In k (map fst ps) -> has_key ps k = false.
Proof.
  intros Hn. unfold has_key. apply not_true_iff_false. intros Hex.
  apply existsb_exists in Hex as ([k' v'] & Hin & Heq). apply String.eqb_eq in Heq. simpl in Heq. subst.
  apply Hn. apply in_map_iff. exists (k, v'). auto.
Qed.

Lemma obj_set_append acc k v :
  keys_ok (map fst acc ++ [k]) -> obj_set acc k v = (acc ++ [(k, v)])%list.
Proof.
  intros [Hnd Hs]. unfold obj_set.
  rewrite has_key_false by (apply nodup_last_not_in; auto).
  destruct (array_index k) as [i|] eqn:E; [eapply insert_end; eauto | reflexivity].
Qed.

Lemma fold_obj_set ps acc :
  keys_ok (map fst (acc ++ ps)) ->
  fold_left (fun acc p => obj_set acc (fst p) (snd p)) ps acc = (acc ++ ps)%list.
Proof.
  revert acc. induction ps as [|[k v] ps IH]; intros acc Hk; simpl.
  - rewrite app_nil_r. reflexivity.
  - rewrite obj_set_append.
    + rewrite IH; [rewrite <- app_assoc; reflexivity|]. rewrite <- app_assoc. exact Hk.
    + rewrite map_app in Hk. simpl in Hk.
      apply (keys_ok_app_l _ (map fst ps)). rewrite <- app_assoc. exact Hk.
Qed.

Lemma own_prop_nodup ps k v : NoDup (map fst ps) -> In (k, v) ps -> own_prop ps k = Some v.
Proof.
  induction ps as [|[k' v'] ps IH]; simpl; [tauto|]. intros Hnd [Heq|Hin].
  - inversion Heq; subst. rewrite String.eqb_refl. reflexivity.
  - inversion Hnd as [|? ? Hn Hnd']; subst.
    destruct (String.eqb_spec k' k); [|auto].
    subst. exfalso. apply Hn. apply in_map_iff. exists (k, v). auto.
Qed.

Lemma fold_copy_props ps rest acc :
  keys_ok (map fst (acc ++ rest)) -> (forall k v, In (k, v) rest -> own_prop ps k = Some v) ->
  fold_left (fun acc k =>
      obj_set acc k (match own_prop ps k with Some v => v | None => VUndefined end))
    (map fst rest) acc = (acc ++ rest)%list.
Proof.
  revert acc. induction rest as [|[k v] rest IH]; intros acc Hk Hown; simpl.
  - rewrite app_nil_r. reflexivity.
  - rewrite (Hown k v (or_introl eq_refl)). rewrite obj_set_append.
    + rewrite IH; [rewrite <- app_assoc; reflexivity| |].
      * rewrite <- app_assoc. exact Hk.
      * intros; apply Hown; simpl; auto.
    + rewrite map_app in Hk. simpl in Hk.
      apply (keys_ok_app_l _ (map fst rest)). rewrite <- app_assoc. exact Hk.
Qed.


(** *** [JSON.parse] reads back the printed text *)

Lemma parse_quote_char c x :
  parse_string_chars (quote_char c ++ x)
  = let* p := parse_string_chars x in Ok (String c (fst p), snd p).
Proof. ascii_cases c; reflexivity. Qed.

Lemma parse_quote_chars s rest :
  parse_string_chars (quote_chars s ++ String dq rest) = Ok (s, rest).
Proof.
  induction s as [|c s IH]; [reflexivity|].
  simpl quote_chars. rewrite str_app_assoc, parse_quote_char, IH. reflexivity.
Qed.


Lemma to_uint_pos_head p : forall d, Pos.to_uint p <> Decimal.D0 d.
Proof.
  intros d Hd.
  assert (Hn : N.to_uint (N.of_uint (N.to_uint (Npos p))) = Decimal.unorm (N.to_uint (Npos p)))
    by apply DecimalN.Unsigned.to_of.
  rewrite DecimalN.Unsigned.of_to in Hn. change (N.to_uint (Npos p)) with (Pos.to_uint p) in Hn.
  rewrite Hd in Hn. unfold Decimal.unorm in Hn. simpl Decimal.nzhead in Hn.
  destruct (Decimal.nzhead d) eqn:E.
  - inversion Hn; subst. apply (DecimalPos.Unsigned.to_uint_nonzero p). rewrite Hd. reflexivity.
  - pose proof (DecimalFacts.nb_digits_nzhead d) as Hle. rewrite E in Hle.
    rewrite <- Hn in Hle. simpl in Hle. lia.
  - pose proof (DecimalFacts.nb_digits_nzhead d) as Hle. rewrite E in Hle.
    rewrite <- Hn in Hle. simpl in Hle. lia.
  - pose proof (DecimalFacts.nb_digits_nzhead d) as Hle. rewrite E in Hle.
    rewrite <- Hn in Hle. simpl in Hle. lia.
  - pose proof (DecimalFacts.nb_digits_nzhead d) as Hle. rewrite E in Hle.
    rewrite <- Hn in Hle. simpl in Hle. lia.
  - pose proof (DecimalFacts.nb_digits_nzhead d) as Hle. rewrite E in Hle.
    rewrite <- Hn in Hle. simpl in Hle. lia.
  - pose proof (DecimalFacts.nb_digits_nzhead d) as Hle. rewrite E in Hle.
    rewrite <- Hn in Hle. simpl in Hle. lia.
  - pose proof (DecimalFacts.nb_digits_nzhead d) as Hle. rewrite E in Hle.
    rewrite <- Hn in Hle. simpl in Hle. lia.
  - pose proof (DecimalFacts.nb_digits_nzhead d) as Hle. rewrite E in Hle.
    rewrite <- Hn in Hle. simpl in Hle. lia.
  - pose proof (DecimalFacts.nb_digits_nzhead d) as Hle. rewrite E in Hle.
    rewrite <- Hn in Hle. simpl in Hle. lia.
  - pose proof (DecimalFacts.nb_digits_nzhead d) as Hle. rewrite E in Hle.
    rewrite <- Hn in Hle. simpl in Hle. lia.
Qed.

Lemma lex_uint d rest :
  (forall c r, rest = String c r -> is_digit c = false) ->
  lex_digits (uint_to_string d ++ rest) = (d, rest).
Proof.
  intros Hr. induction d; simpl; try (rewrite IHd; reflexivity).
  destruct rest as [|c r]; [reflexivity|]. simpl. rewrite (Hr c r eq_refl). reflexivity.
Qed.

Lemma delim_cases rest : delim_ok rest = true ->
  rest = "" \/ exists r, rest = String "," r \/ rest = String "]" r \/ rest = String "}" r.
Proof.
  intros H. destruct rest as [|c r]; [auto|]. right. exists r. revert H.
  ascii_cases c; simpl; intros H; try discriminate H; auto.
Qed.

Lemma delim_not_digit rest : delim_ok rest = true ->
  forall c r, rest = String c r -> is_digit c = false.
Proof.
  intros H c r ->. revert H. ascii_cases c; simpl; intros H; try discriminate H; reflexivity.
Qed.

Lemma parse_number_print n rest :
  (Z.abs n <= max_safe)%Z -> delim_ok rest = true ->
  parse_number (number_to_string n ++ rest) = Ok (JNum n, rest).
Proof.
  intros Hs Hd. pose proof (delim_not_digit rest Hd) as Hnd.
  destruct n as [|p|p].
  - destruct (delim_cases rest Hd) as [->|(r & [-> | [-> | ->]])]; reflexivity.
  - unfold number_to_string. simpl Z.ltb. simpl Z.abs_N. cbn [String.append].
    change (N.to_uint (Npos p)) with (Pos.to_uint p).
    pose proof (to_uint_pos_head p) as Hh.
    pose proof (DecimalN.Unsigned.of_to (Npos p)) as Hof.
    change (N.to_uint (Npos p)) with (Pos.to_uint p) in Hof.
    destruct (Pos.to_uint p) as [| d | d | d | d | d | d | d | d | d | d] eqn:E;
      [exfalso; exact (DecimalPos.Unsigned.to_uint_nonnil p E)
      | exfalso; exact (Hh d eq_refl) | .. ];
      unfold parse_number; simpl; rewrite lex_uint by exact Hnd; simpl;
      simpl in Hof; injection Hof as Hof; rewrite Hof;
      (destruct (delim_cases rest Hd) as [->|(r & [-> | [-> | ->]])];
       cbn -[max_safe]; simpl in Hs; apply Z.ltb_ge in Hs; rewrite Hs; reflexivity).
  - unfold number_to_string. simpl Z.ltb. simpl Z.abs_N. cbn [String.append].
    change (N.to_uint (Npos p)) with (Pos.to_uint p).
    pose proof (to_uint_pos_head p) as Hh.
    pose proof (DecimalN.Unsigned.of_to (Npos p)) as Hof.
    change (N.to_uint (Npos p)) with (Pos.to_uint p) in Hof.
    destruct (Pos.to_uint p) as [| d | d | d | d | d | d | d | d | d | d] eqn:E;
      [exfalso; exact (DecimalPos.Unsigned.to_uint_nonnil p E)
      | exfalso; exact (Hh d eq_refl) | .. ];
      unfold parse_number; simpl; rewrite lex_uint by exact Hnd; simpl;
      simpl in Hof; injection Hof as Hof; rewrite Hof;
      (destruct (delim_cases rest Hd) as [->|(r & [-> | [-> | ->]])];
       cbn -[max_safe]; simpl in Hs; apply Z.ltb_ge in Hs; rewrite Hs; reflexivity).
Qed.


Lemma print_head t : exists c r, print_json t = String c r /\
  is_json_ws c = false /\ char_is 93 c = false.
Proof.
  destruct t as [| [] | n | s | ts | ms];
    try (do 2 eexists; split; [reflexivity | split; reflexivity]).
  simpl. unfold number_to_string. destruct n as [|p|p];
    try (do 2 eexists; split; [reflexivity | split; reflexivity]).
  simpl. change (N.to_uint (Npos p)) with (Pos.to_uint p).
  pose proof (DecimalPos.Unsigned.to_uint_nonnil p).
  destruct (Pos.to_uint p); [congruence|..];
    (do 2 eexists; split; [reflexivity | split; reflexivity]).
Qed.

Lemma number_head n : exists c r, number_to_string n = String c r /\
  (char_is 45 c || is_digit c) = true.
Proof.
  unfold number_to_string. destruct n as [|p|p];
    try (do 2 eexists; split; reflexivity).
  simpl. change (N.to_uint (Npos p)) with (Pos.to_uint p).
  pose proof (DecimalPos.Unsigned.to_uint_nonnil p).
  destruct (Pos.to_uint p); [congruence|..]; (do 2 eexists; split; reflexivity).
Qed.

Lemma parse_value_num f c r : (char_is 45 c || is_digit c) = true ->
  parse_value (S f) (String c r) = parse_number (String c r).
Proof. ascii_cases c; simpl; intros H; try discriminate H; reflexivity. Qed.

Lemma parse_value_str f x :
  parse_value (S f) (String dq x) = let* p := parse_string_chars x in Ok (JStr (fst p), snd p).
Proof. reflexivity. Qed.

Lemma parse_value_obj f y :
  parse_value (S f) (String "{" (String dq y)) = parse_members f [] (String dq y).
Proof. reflexivity. Qed.

Lemma parse_value_arr f c r : is_json_ws c = false -> char_is 93 c = false ->
  parse_value (S f) (String "[" (String c r)) = parse_elems f [] (String c r).
Proof. intros Hw H9. simpl. rewrite Hw. simpl. rewrite H9. reflexivity. Qed.

Lemma join_cons_app x l X :
  join "," (x :: l) ++ X
  = x ++ match l with [] => X | _ => String "," (join "," l ++ X) end.
Proof.
  simpl. rewrite str_app_assoc. destruct l; simpl; [reflexivity|].
  reflexivity.
Qed.

Lemma parse_members_step f acc k v Z :
  parse_value f (print_json v ++ Z) = Ok (v, Z) ->
  parse_members (S f) acc ((QuoteJSONString k ++ ":" ++ print_json v) ++ Z)
  = match skip_ws Z with
    | String c r =>
        if char_is 44 c then parse_members f (acc ++ [(k, v)]) r
        else if char_is 125 c then Ok (JObj (acc ++ [(k, v)]), r)
        else Throw SyntaxError
    | EmptyString => Throw SyntaxError
    end.
Proof.
  intros H. unfold QuoteJSONString. rewrite !str_app_assoc. cbn [String.append].
  simpl. rewrite str_app_assoc. cbn [String.append]. rewrite parse_quote_chars. simpl. rewrite H. reflexivity.
Qed.

Lemma parse_print t : json_wf t -> forall f rest, json_size t <= f -> delim_ok rest = true ->
  parse_value f (print_json t ++ rest) = Ok (t, rest).
Proof.
  induction t as [| b | n | s | ts IH | ms IH] using json_ind';
    intros Hwf f rest Hf Hd; (destruct f as [|f]; [simpl in Hf; lia|]).
  - reflexivity.
  - destruct b; reflexivity.
  - inversion Hwf; subst.
    change (print_json (JNum n)) with (number_to_string n).
    destruct (number_head n) as (c & r & Hp & Hc).
    rewrite Hp. simpl String.append. rewrite parse_value_num by exact Hc.
    change (String c (r ++ rest)) with (String c r ++ rest). rewrite <- Hp.
    apply parse_number_print; auto.
  - change (print_json (JStr s)) with (String dq (quote_chars s ++ String dq "")).
    simpl String.append at 1. rewrite str_app_assoc. rewrite parse_value_str.
    simpl String.append. rewrite parse_quote_chars. reflexivity.
  - inversion Hwf as [| | | | ? Hts |]; subst.
    assert (Helems : forall ts f acc rest,
               Forall (fun t => json_wf t /\ forall f rest, json_size t <= f ->
                         delim_ok rest = true -> parse_value f (print_json t ++ rest) = Ok (t, rest)) ts ->
               ts <> [] -> list_sum (map (fun t => S (json_size t)) ts) <= f ->
               parse_elems f acc (join "," (map print_json ts) ++ String "]" rest)
               = Ok (JArr (acc ++ ts), rest)).
    { clear. induction ts as [|t ts IHts]; intros f acc rest Hall Hne Hf; [congruence|].
      inversion Hall as [|? ? [Hwt IHt] Hall']; subst.
      destruct f as [|f]; [simpl in Hf; lia|]. simpl in Hf.
      cbn [map]. rewrite join_cons_app.
      destruct ts as [|t' ts'].
      - cbn [parse_elems]. rewrite IHt by (auto; lia). cbn [bind_result fst snd].
        simpl. reflexivity.
      - cbn [parse_elems]. rewrite IHt by (auto; lia). cbn [bind_result fst snd].
        simpl skip_ws. cbn iota. simpl char_is. cbn iota.
        rewrite IHts; auto; [| congruence | lia ].
        rewrite <- app_assoc. reflexivity. }
    destruct ts as [|t1 ts1]; [reflexivity|].
    change (print_json (JArr (t1 :: ts1)) ++ rest)
      with (("[" ++ join "," (map print_json (t1 :: ts1)) ++ "]") ++ rest).
    rewrite !str_app_assoc. change ("]" ++ rest) with (String "]" rest).
    change ("[" ++ ?X) with (String "[" X).
    pose proof (join_cons_app (print_json t1) (map print_json ts1) (String "]" rest)) as Ej.
    cbn [map] in *. rewrite Ej.
    destruct (print_head t1) as (c & r & Hp & Hw & H9).
    rewrite Hp. simpl String.append at 1. rewrite parse_value_arr by auto.
    change (String c (r ++ ?Y)) with (String c r ++ Y). rewrite <- Hp, <- Ej.
    change (print_json t1 :: map print_json ts1) with (map print_json (t1 :: ts1)).
    rewrite Helems; [reflexivity | | congruence | simpl in Hf |- *; lia].
    clear -IH Hts. induction Hts; inversion IH; subst; constructor; auto.
  - inversion Hwf as [| | | | | ? Hks Hms]; subst.
    assert (Hmembers : forall ms f acc rest,
               Forall (fun m => json_wf (snd m) /\ forall f rest, json_size (snd m) <= f ->
                         delim_ok rest = true ->
                         parse_value f (print_json (snd m) ++ rest) = Ok (snd m, rest)) ms ->
               ms <> [] -> list_sum (map (fun m => S (json_size (snd m))) ms) <= f ->
               parse_members f acc
                 (join "," (map (fun m => QuoteJSONString (fst m) ++ ":" ++ print_json (snd m)) ms)
                  ++ String "}" rest)
               = Ok (JObj (acc ++ ms), rest)).
    { clear. induction ms as [|[k v] ms IHms]; intros f acc rest Hall Hne Hf; [congruence|].
      inversion Hall as [|? ? [Hwt IHt] Hall']; subst. simpl fst in *; simpl snd in *.
      destruct f as [|f]; [simpl in Hf; lia|]. simpl in Hf.
      cbn [map]. rewrite join_cons_app.
      destruct ms as [|m' ms'].
      - rewrite parse_members_step by (apply IHt; auto; lia). reflexivity.
      - rewrite parse_members_step by (apply IHt; auto; lia).
        remember (join "," _ ++ String "}" rest) as T eqn:ET.
        simpl. subst T.
        rewrite IHms; auto; [| congruence | lia ].
        rewrite <- app_assoc. reflexivity. }
    destruct ms as [|m1 ms1]; [reflexivity|].
    change (print_json (JObj (m1 :: ms1)) ++ rest)
      with (("{" ++ join "," (map (fun m => QuoteJSONString (fst m) ++ ":" ++ print_json (snd m))
                                  (m1 :: ms1)) ++ "}") ++ rest).
    rewrite !str_app_assoc. change ("}" ++ rest) with (String "}" rest).
    change ("{" ++ ?X) with (String "{" X).
    assert (HY : exists Y,
      join "," (map (fun m => QuoteJSONString (fst m) ++ ":" ++ print_json (snd m)) (m1 :: ms1))
        ++ String "}" rest = String dq Y)
      by (cbn [map]; rewrite join_cons_app; eexists; reflexivity).
    destruct HY as [Y HY]. rewrite HY, parse_value_obj, <- HY.
    apply Hmembers; [| congruence | simpl in Hf |- *; lia].
    clear -IH Hms. induction Hms; inversion IH; subst; constructor; auto.
Qed.

Lemma list_sum_map_le {A} (f g : A -> nat) l :
  (forall x, In x l -> f x <= g x) -> list_sum (map f l) <= list_sum (map g l).
Proof.
  induction l as [|x l IH]; simpl; intros H; [lia|].
  assert (list_sum (map f l) <= list_sum (map g l)) by (apply IH; intros; apply H; auto).
  specialize (H x (or_introl eq_refl)). lia.
Qed.

Lemma join_length l :
  list_sum (map (fun s => S (String.length s)) l) <= S (String.length (join "," l)).
Proof.
  induction l as [|x l IH]; simpl; [lia|].
  rewrite str_length_app. destruct l as [|y l']; simpl in *; [lia|].
  rewrite str_length_app in IH |- *. simpl. lia.
Qed.

Lemma json_size_le t : json_size t <= String.length (print_json t).
Proof.
  induction t as [| [] | n | s | ts IH | ms IH] using json_ind';
    try (simpl; lia).
  - change (print_json (JNum n)) with (number_to_string n).
    destruct (number_head n) as (c & r & -> & _). simpl. lia.
  - simpl. rewrite str_length_app. simpl.
    pose proof (join_length (map print_json ts)) as Hj. rewrite map_map in Hj.
    assert (list_sum (map (fun t => S (json_size t)) ts)
            <= list_sum (map (fun t => S (String.length (print_json t))) ts)).
    { apply list_sum_map_le. intros x Hx. rewrite Forall_forall in IH. specialize (IH x Hx). lia. }
    lia.
  - cbn -[QuoteJSONString join]. rewrite str_length_app. cbn -[QuoteJSONString join].
    pose proof (join_length (map (fun m => QuoteJSONString (fst m) ++ ":" ++ print_json (snd m)) ms))
      as Hj. rewrite map_map in Hj.
    assert (list_sum (map (fun m => S (json_size (snd m))) ms)
            <= list_sum (map (fun m => S (String.length (QuoteJSONString (fst m) ++ ":" ++ print_json (snd m)))) ms)).
    { apply list_sum_map_le. intros x Hx. rewrite Forall_forall in IH. specialize (IH x Hx).
      rewrite !str_length_app. simpl. lia. }
    cbn -[QuoteJSONString join] in Hj, H. lia.
Qed.

Lemma JSON_parse_print h t : json_wf t -> JSON_parse h (print_json t) = Ok (alloc_json h t).
Proof.
  intros Hwf. unfold JSON_parse.
  assert (H : parse_value (S (String.length (print_json t))) (print_json t ++ "") = Ok (t, ""))
    by (apply parse_print; auto; pose proof (json_size_le t); lia).
  rewrite str_app_nil_r in H. rewrite H. reflexivity.
Qed.


(** *** The objects [JSON.parse] allocates represent the tree *)

Lemma Forall_le_weaken (a b : nat) stack :
  a <= b -> Forall (fun l => b <= l) stack -> Forall (fun l => a <= l) stack.
Proof. intros Hab H. eapply Forall_impl; [|exact H]. simpl; intros; lia. Qed.

Lemma deref_alloc h o : deref (h ++ [o])%list (length h) = Some o.
Proof. unfold deref. rewrite nth_error_app2, Nat.sub_diag by lia. reflexivity. Qed.

Lemma alloc_fresh_not_in (h : heap) (o : jsobj) (stack : list loc) :
  Forall (fun l => length (h ++ [o])%list <= l) stack -> ~ In (length h) stack.
Proof.
  intros H Hin. rewrite Forall_forall in H. specialize (H _ Hin).
  rewrite length_app in H. simpl in H. lia.
Qed.

Definition alloc_ok (t : json) : Prop :=
  json_wf t -> forall h stack,
    Forall (fun l => length (fst (alloc_json h t)) <= l) stack ->
    reps (fst (alloc_json h t)) stack (snd (alloc_json h t)) t /\
    exists e, fst (alloc_json h t) = (h ++ e)%list.

Lemma alloc_seq_arr ts :
  Forall alloc_ok ts -> Forall json_wf ts -> forall h stack,
    Forall (fun l => length (fst (alloc_seq alloc_json h ts)) <= l) stack ->
    Forall2 (reps (fst (alloc_seq alloc_json h ts)) stack) (snd (alloc_seq alloc_json h ts)) ts /\
    exists e, fst (alloc_seq alloc_json h ts) = (h ++ e)%list.
Proof.
  induction ts as [|t ts IHts]; intros Hok Hwf h stack Hst; simpl in *.
  - split; [constructor | exists []; rewrite app_nil_r; reflexivity].
  - inversion Hok as [|? ? Ht Hts]; inversion Hwf as [|? ? Hwt Hwts]; subst.
    destruct (IHts Hts Hwts (fst (alloc_json h t)) stack Hst) as [HF [e2 He2]].
    assert (Hst1 : Forall (fun l => length (fst (alloc_json h t)) <= l) stack).
    { eapply Forall_le_weaken; [|exact Hst]. rewrite He2, length_app. lia. }
    destruct (Ht Hwt h stack Hst1) as [Hr [e1 He1]].
    split.
    + constructor; [rewrite He2; apply reps_mono; exact Hr | exact HF].
    + exists (e1 ++ e2)%list. rewrite He2, He1, app_assoc. reflexivity.
Qed.

Lemma alloc_seq_obj (ms : list (string * json)) :
  Forall (fun m => alloc_ok (snd m)) ms -> Forall (fun m => json_wf (snd m)) ms -> forall h stack,
    let hp := alloc_seq (fun h m => let hv := alloc_json h (snd m) in (fst hv, (fst m, snd hv))) h ms in
    Forall (fun l => length (fst hp) <= l) stack ->
    map fst (snd hp) = map fst ms /\
    Forall2 (fun p m => reps (fst hp) stack (snd p) (snd m)) (snd hp) ms /\
    exists e, fst hp = (h ++ e)%list.
Proof.
  induction ms as [|[k t] ms IHms]; intros Hok Hwf h stack hp Hst; subst hp; simpl in *.
  - split; [reflexivity | split; [constructor | exists []; rewrite app_nil_r; reflexivity]].
  - inversion Hok as [|? ? Ht Hms]; inversion Hwf as [|? ? Hwt Hwms]; subst.
    destruct (IHms Hms Hwms (fst (alloc_json h t)) stack Hst) as (Hk & HF & e2 & He2).
    cbn [fst snd] in Hk, HF, He2, Hst, Ht, Hwt |- *.
    assert (Hst1 : Forall (fun l => length (fst (alloc_json h t)) <= l) stack).
    { eapply Forall_le_weaken; [|exact Hst]. rewrite He2, length_app. lia. }
    destruct (Ht Hwt h stack Hst1) as [Hr [e1 He1]].
    split; [|split].
    + f_equal. exact Hk.
    + constructor; [simpl; rewrite He2; apply reps_mono; exact Hr | exact HF].
    + exists (e1 ++ e2)%list. rewrite He2, He1, app_assoc. reflexivity.
Qed.

Lemma alloc_json_reps t : alloc_ok t.
Proof.
  induction t as [| b | n | s | ts IH | ms IH] using json_ind';
    intros Hwf h stack Hst.
  - split; [constructor | exists []; simpl; rewrite app_nil_r; reflexivity].
  - split; [constructor | exists []; simpl; rewrite app_nil_r; reflexivity].
  - inversion Hwf; subst.
    split; [constructor; assumption | exists []; simpl; rewrite app_nil_r; reflexivity].
  - split; [constructor | exists []; simpl; rewrite app_nil_r; reflexivity].
  - inversion Hwf as [| | | | ? Hwts |]; subst.
    cbn [alloc_json] in *. unfold alloc in *. cbn [fst snd] in *.
    destruct (alloc_seq_arr ts IH Hwts h (length (fst (alloc_seq alloc_json h ts)) :: stack))
      as [HF [e He]].
    { constructor; [lia|]. eapply Forall_le_weaken; [|exact Hst]. rewrite length_app. lia. }
    split.
    + eapply reps_arr.
      * apply deref_alloc.
      * eapply alloc_fresh_not_in; exact Hst.
      * eapply Forall2_impl; [|exact HF]. intros; apply reps_mono; assumption.
    + exists (e ++ [OArray (snd (alloc_seq alloc_json h ts))])%list.
      rewrite He, app_assoc. reflexivity.
  - inversion Hwf as [| | | | | ? Hkeys Hwms]; subst.
    cbn [alloc_json] in *. unfold alloc in *. cbn [fst snd] in *.
    pose proof (alloc_seq_obj ms IH Hwms h) as HL. cbv zeta in HL, Hst |- *.
    set (hp := alloc_seq _ h ms) in *.
    destruct (HL (length (fst hp) :: stack)) as (Hk & HF & e & He).
    { constructor; [lia|]. eapply Forall_le_weaken; [|exact Hst]. rewrite length_app. lia. }
    rewrite (fold_obj_set (snd hp) []) in * by (simpl; rewrite Hk; exact Hkeys).
    simpl app in *.
    split.
    + eapply reps_obj.
      * apply deref_alloc.
      * eapply alloc_fresh_not_in; exact Hst.
      * rewrite Hk; exact Hkeys.
      * exact Hk.
      * eapply Forall2_impl; [|exact HF]. intros; apply reps_mono; assumption.
    + exists (e ++ [OPlain (snd hp)])%list.
      rewrite He, app_assoc. reflexivity.
Qed.

Lemma JSON_stringify_reps h v t : reps h [] v t -> JSON_stringify h v = Ok (Some (print_json t)).
Proof.
  intros Hr. unfold JSON_stringify. eapply serialize_reps; [exact Hr | apply NoDup_nil | constructor | simpl; lia].
Qed.

Lemma deepEquals_reps h a b t : reps h [] a t -> reps h [] b t -> deepEquals h a b = Ok true.
Proof.
  intros Ha Hb. unfold deepEquals.
  destruct (strict_eq a b) eqn:Hs; [reflexivity|].
  destruct t;
    try (inversion Ha; inversion Hb; subst; simpl in Hs;
         rewrite ?eqb_reflx, ?Z.eqb_refl, ?String.eqb_refl in Hs; discriminate).
  - rewrite (typeof_reps _ _ _ _ Ha), (typeof_reps _ _ _ _ Hb). simpl.
    rewrite (JSON_stringify_reps _ _ _ Ha), (JSON_stringify_reps _ _ _ Hb). simpl.
    rewrite String.eqb_refl. reflexivity.
  - rewrite (typeof_reps _ _ _ _ Ha), (typeof_reps _ _ _ _ Hb). simpl.
    rewrite (JSON_stringify_reps _ _ _ Ha), (JSON_stringify_reps _ _ _ Hb). simpl.
    rewrite String.eqb_refl. reflexivity.
Qed.

(** C9: for a JSON-serialisable value [obj] of type ['object'] (it
    represents a tree: no cycle, no function and no [undefined] in it),
    [deepCopy(obj)] succeeds and [deepEquals(deepCopy(obj), obj)] is
    [true], the copy only adding objects to the heap; for an input whose
    [typeof] is not ['object'], [deepCopy] returns it unchanged. *)
Theorem deepCopy_round_trip :
  (forall h obj t, reps h [] obj t -> typeof h obj = "object" ->
     exists h' c, deepCopy h obj = Ok (h', c) /\ deepEquals h' c obj = Ok true /\
                  exists e, h' = (h ++ e)%list) /\
  (forall h obj, typeof h obj <> "object" -> deepCopy h obj = Ok (h, obj)).
Proof.
  split.
  - intros h obj t Hr Hty. unfold deepCopy. rewrite Hty, String.eqb_refl.
    rewrite (JSON_stringify_reps _ _ _ Hr). cbn [bind_result].
    assert (Hwf : json_wf t) by (eapply reps_wf; eauto).
    rewrite (JSON_parse_print h t Hwf).
    destruct (alloc_json_reps t Hwf h [] (Forall_nil _)) as [Hc [e He]].
    exists (fst (alloc_json h t)), (snd (alloc_json h t)).
    split; [rewrite <- surjective_pairing; reflexivity | split; [|exists e; exact He]].
    apply (deepEquals_reps _ _ _ t Hc). rewrite He. apply reps_mono. exact Hr.
  - intros h obj Hty. unfold deepCopy.
    destruct (String.eqb_spec (typeof h obj) "object"); [contradiction | reflexivity].
Qed.

Lemma deepCopy_round_trip_witness :
  reps [OPlain [("a", VNum 1%Z)]] [] (VRef 0) (JObj [("a", JNum 1%Z)]) /\
  typeof [OPlain [("a", VNum 1%Z)]] (VRef 0) = "object" /\
  exists h' c, deepCopy [OPlain [("a", VNum 1%Z)]] (VRef 0) = Ok (h', c) /\
    deepEquals h' c (VRef 0) = Ok true /\ exists e, h' = ([OPlain [("a", VNum 1%Z)]] ++ e)%list.
Proof.
  assert (Hr : reps [OPlain [("a", VNum 1%Z)]] [] (VRef 0) (JObj [("a", JNum 1%Z)])).
  { eapply reps_obj with (ps := [("a", VNum 1%Z)]).
    - reflexivity.
    - simpl; tauto.
    - split; [repeat constructor; simpl; tauto | reflexivity].
    - reflexivity.
    - constructor; [simpl; constructor; unfold max_safe; lia | constructor]. }
  split; [exact Hr | split; [reflexivity |]].
  exact (proj1 deepCopy_round_trip _ _ _ Hr eq_refl).
Defined.

(** C10 (the part that holds): [shallowCopy] of an array is a fresh array
    with the same elements in the same order; of a plain object, a fresh
    object with the same own keys in the same order, each bound to the
    identical value; an input whose [typeof] is not ['object'] comes back
    unchanged. *)
Theorem shallowCopy_top_level :
  (forall h l vs, deref h l = Some (OArray vs) ->
     shallowCopy h (VRef l) = Ok ((h ++ [OArray vs])%list, VRef (length h))) /\
  (forall h l ps, deref h l = Some (OPlain ps) -> keys_ok (map fst ps) ->
     shallowCopy h (VRef l) = Ok ((h ++ [OPlain ps])%list, VRef (length h))) /\
  (forall h v, typeof h v <> "object" -> shallowCopy h v = Ok (h, v)).
Proof.
  split; [|split].
  - intros h l vs Hd. unfold shallowCopy, isArray. rewrite Hd. reflexivity.
  - intros h l ps Hd Hk. unfold shallowCopy, isArray, typeof. rewrite Hd. cbn -[obj_set own_prop].
    rewrite (fold_copy_props ps ps []); [reflexivity | exact Hk |].
    intros k v Hin. apply own_prop_nodup; [apply Hk | exact Hin].
  - intros h v Hty. unfold shallowCopy.
    assert (Ha : isArray h v = false).
    { destruct v as [| | | | | l]; try reflexivity. unfold isArray.
      unfold typeof in Hty. destruct (deref h l) as [[]|]; congruence. }
    rewrite Ha. destruct (String.eqb_spec (typeof h v) "object"); [contradiction | reflexivity].
Qed.

Lemma shallowCopy_top_level_witness :
  shallowCopy [OArray [VNum 1%Z; VNull]] (VRef 0) = Ok ([OArray [VNum 1%Z; VNull]; OArray [VNum 1%Z; VNull]], VRef 1) /\
  shallowCopy [OPlain [("b", VNum 2%Z); ("a", VNull)]] (VRef 0) =
    Ok ([OPlain [("b", VNum 2%Z); ("a", VNull)]; OPlain [("b", VNum 2%Z); ("a", VNull)]], VRef 1) /\
  shallowCopy [] (VStr "x") = Ok ([], VStr "x").
Proof.
  destruct shallowCopy_top_level as (Harr & Hobj & Hprim).
  split; [|split].
  - exact (Harr [OArray [VNum 1%Z; VNull]] 0 _ eq_refl).
  - apply (Hobj [OPlain [("b", VNum 2%Z); ("a", VNull)]] 0 _ eq_refl).
    split; [repeat constructor; simpl; intuition discriminate | reflexivity].
  - apply Hprim. discriminate.
Defined.

(** C10 (counterexample): [null] is not an object, yet [typeof null] is
    ['object'] and it is not an array, so [shallowCopy(null)] reaches
    [Object.keys(null)] and throws a [TypeError] instead of returning
    [null] (as [deepCopy(null)] does). *)
Lemma shallowCopy_null_counterexample :
  typeof [] VNull = "object" /\ isArray [] VNull = false /\
  shallowCopy [] VNull = Throw TypeError /\ deepCopy [] VNull = Ok ([], VNull).
Proof. repeat split; reflexivity. Qed.


(* ------------------------------------------------------------------ *)
(** ** [trim] *)

(** *** Slices *)


Lemma slice_from_S c s i : slice_from (String c s) (S i) = slice_from s i.
Proof. reflexivity. Qed.

Lemma slice_from_app_le x y p :
  p <= String.length x -> slice_from (x ++ y) p = (slice_from x p ++ y)%string.
Proof.
  revert p. induction x as [|c x IH]; intros p Hp; simpl in Hp.
  - assert (p = 0) by lia. subst. rewrite !slice_from_0. reflexivity.
  - destruct p as [|p].
    + rewrite !slice_from_0. reflexivity.
    + simpl (String c x ++ y)%string. rewrite !slice_from_S. apply IH. lia.
Qed.

Lemma slice_from_length s : slice_from s (String.length s) = "".
Proof. induction s as [|c s IH]; [reflexivity|]. simpl String.length. rewrite slice_from_S. exact IH. Qed.

Lemma slice_from_app_length x y : slice_from (x ++ y) (String.length x) = y.
Proof.
  rewrite slice_from_app_le by lia. rewrite slice_from_length. reflexivity.
Qed.

Lemma slice_from_len s p : p <= String.length s -> String.length (slice_from s p) = String.length s - p.
Proof.
  revert p. induction s as [|c s IH]; intros p Hp; simpl in Hp.
  - assert (p = 0) by lia. subst. reflexivity.
  - destruct p as [|p]; [rewrite slice_from_0; simpl; lia|].
    rewrite slice_from_S. simpl String.length. rewrite IH by lia. lia.
Qed.

Lemma slice_from_beyond s p : String.length s <= p -> slice_from s p = "".
Proof.
  intros H. unfold slice_from. replace (String.length s - p) with 0 by lia.
  clear H. revert p. induction s as [|c s IH]; intros [|p]; simpl; auto.
Qed.

Lemma substring_0_app x y : substring 0 (String.length x) (x ++ y) = x.
Proof. induction x as [|c x IH]; simpl; [destruct y; reflexivity|]. rewrite IH. reflexivity. Qed.

Lemma slice_mid x y z :
  slice (x ++ y ++ z) (String.length x) (String.length x + String.length y) = y.
Proof.
  unfold slice. replace (String.length x + String.length y - String.length x)
    with (String.length y) by lia.
  induction x as [|c x IH]; simpl; [apply substring_0_app | exact IH].
Qed.

Lemma slice_empty s i : slice s i i = "".
Proof. unfold slice. rewrite Nat.sub_diag. revert i. induction s; intros [|i]; simpl; auto. Qed.

Lemma slice_prefix x y : slice (x ++ y) 0 (String.length x) = x.
Proof. unfold slice. rewrite Nat.sub_0_r. apply substring_0_app. Qed.

(** *** The greedy run and its backtracking *)

Lemma trim_class_ws c : trim_class c = is_js_ws c.
Proof. unfold trim_class, is_js_ws. destruct (char_is 160 c); rewrite ?orb_true_r, ?orb_false_r; reflexivity. Qed.

Lemma all_chars_trim_class s : all_chars trim_class s = all_chars is_js_ws s.
Proof. induction s as [|c s IH]; simpl; [reflexivity|]. rewrite trim_class_ws, IH. reflexivity. Qed.

Lemma class_run_le p s : class_run p s <= String.length s.
Proof. induction s as [|c s IH]; simpl; [lia|]. destruct (p c); simpl; lia. Qed.

Lemma class_run_full p s : class_run p s = String.length s -> all_chars p s = true.
Proof.
  induction s as [|c s IH]; simpl; [auto|]. destruct (p c); simpl; [|discriminate].
  intros H. apply IH. lia.
Qed.

Lemma class_run_app p x y :
  all_chars p x = true -> class_run p (x ++ y) = String.length x + class_run p y.
Proof.
  induction x as [|c x IH]; simpl; [auto|]. destruct (p c); simpl; [|discriminate].
  intros H. rewrite IH; auto.
Qed.

Lemma class_run_all p s : all_chars p s = true -> class_run p s = String.length s.
Proof. intros H. pose proof (class_run_app p s "" H). rewrite str_app_nil_r in H0. simpl in H0. lia. Qed.

Lemma backtrack_some f k j : backtrack f k = Some j -> f j = true /\ 1 <= j <= k.
Proof.
  induction k as [|k IH]; simpl; [discriminate|].
  destruct (f (S k)) eqn:E; [intros H; inversion H; subst; split; [exact E | lia]|].
  intros H. destruct (IH H) as [? ?]. split; auto. lia.
Qed.

Lemma backtrack_top f k : 1 <= k -> f k = true -> backtrack f k = Some k.
Proof. destruct k as [|k]; simpl; [lia|]. intros _ H. rewrite H. reflexivity. Qed.

(** *** [TRIM_REGULAR_EXPRESSION] at one index *)

Lemma match_at_0 s :
  trim_match_at s 0 =
  if class_run trim_class s =? 0 then None else Some (class_run trim_class s).
Proof.
  unfold trim_match_at. rewrite slice_from_0. simpl (0 =? 0).
  destruct (class_run trim_class s) as [|k]; reflexivity.
Qed.

Lemma match_at_pos s i :
  0 < i ->
  trim_match_at s i =
  if all_chars trim_class (slice_from s i) && (i <? String.length s)
  then Some (String.length s) else None.
Proof.
  intros Hi. unfold trim_match_at.
  replace (i =? 0) with false by (symmetry; apply Nat.eqb_neq; lia).
  pose proof (class_run_le trim_class (slice_from s i)) as Hle.
  destruct (backtrack _ _) as [j|] eqn:B.
  - apply backtrack_some in B as [Hj Hk]. apply Nat.eqb_eq in Hj.
    destruct (Nat.le_gt_cases i (String.length s)) as [Hin|Hout].
    + rewrite slice_from_len in Hle by exact Hin.
      assert (Hfull : class_run trim_class (slice_from s i) = String.length (slice_from s i))
        by (rewrite slice_from_len by exact Hin; lia).
      rewrite (class_run_full _ _ Hfull).
      replace (i <? String.length s) with true by (symmetry; apply Nat.ltb_lt; lia).
      simpl. f_equal. exact Hj.
    + lia.
  - destruct (all_chars trim_class (slice_from s i)) eqn:A; [|reflexivity].
    destruct (i <? String.length s) eqn:L; [|reflexivity]. apply Nat.ltb_lt in L.
    apply class_run_all in A. rewrite slice_from_len in A by lia.
    rewrite backtrack_top in B; [discriminate | lia |]. apply Nat.eqb_eq. lia.
Qed.

(** *** [RegExpBuiltinExec] *)

Lemma exec_none s last fuel :
  (forall p, last <= p <= String.length s -> trim_match_at s p = None) ->
  trim_exec s last fuel = None.
Proof.
  revert last. induction fuel as [|f IH]; intros last H; simpl; [reflexivity|].
  destruct (String.length s <? last) eqn:L; [reflexivity|]. apply Nat.ltb_ge in L.
  rewrite H by lia. apply IH. intros p Hp. apply H. lia.
Qed.

Lemma exec_first s last j e fuel :
  last <= j <= String.length s -> j - last < fuel ->
  (forall p, last <= p < j -> trim_match_at s p = None) ->
  trim_match_at s j = Some e -> trim_exec s last fuel = Some (j, e).
Proof.
  revert last. induction fuel as [|f IH]; intros last Hj Hf Hnone Hm; [lia|]. simpl.
  replace (String.length s <? last) with false by (symmetry; apply Nat.ltb_ge; lia).
  destruct (Nat.eq_dec last j) as [->|Hne]; [rewrite Hm; reflexivity|].
  rewrite Hnone by lia. apply IH; [lia | lia | | exact Hm].
  intros p Hp. apply Hnone. lia.
Qed.

(** *** [String.prototype.trim] *)

Lemma trim_start_spec s :
  exists P, s = (P ++ trim_start s)%string /\ all_chars is_js_ws P = true /\
    (trim_start s = "" \/ exists c r, trim_start s = String c r /\ is_js_ws c = false).
Proof.
  induction s as [|c s IH]; simpl.
  - exists "". auto.
  - destruct (is_js_ws c) eqn:W.
    + destruct IH as (P & HP & HA & HT). exists (String c P). simpl. rewrite W, <- HP. auto.
    + exists "". simpl. split; [reflexivity | split; [reflexivity | right; eauto]].
Qed.

Lemma trim_end_spec s :
  exists Q, s = (trim_end s ++ Q)%string /\ all_chars is_js_ws Q = true /\
    (trim_end s = "" \/ exists m c, trim_end s = (m ++ String c "")%string /\ is_js_ws c = false).
Proof.
  induction s as [|c s IH]; simpl.
  - exists "". auto.
  - destruct IH as (Q & HQ & HA & HT).
    destruct (is_js_ws c && String.eqb (trim_end s) "") eqn:E.
    + apply andb_prop in E as [W Hn]. apply String.eqb_eq in Hn.
      exists (String c Q). simpl. rewrite W, HA. split; [|auto].
      rewrite HQ at 1. rewrite Hn. reflexivity.
    + exists Q. simpl. split; [rewrite HQ at 1; reflexivity | split; [exact HA | right]].
      destruct HT as [Hn | (m & c' & Hm & Hc')].
      * rewrite Hn in E |- *. rewrite andb_true_r in E. exists "", c. auto.
      * exists (String c m), c'. rewrite Hm. auto.
Qed.

Lemma trim_end_cons c r : is_js_ws c = false -> trim_end (String c r) = String c (trim_end r).
Proof. intros W. simpl. rewrite W. reflexivity. Qed.

(** The decomposition [s = P ++ string_trim s ++ Q]. *)
Lemma string_trim_decomp s :
  exists P Q, s = (P ++ string_trim s ++ Q)%string /\
    all_chars is_js_ws P = true /\ all_chars is_js_ws Q = true /\
    ((string_trim s = "" /\ Q = "") \/
     ((exists c r, string_trim s = String c r /\ is_js_ws c = false) /\
      (exists m c, string_trim s = (m ++ String c "")%string /\ is_js_ws c = false))).
Proof.
  destruct (trim_start_spec s) as (P & HP & HA & HT). unfold string_trim.
  destruct HT as [HT | (c & r & HT & Hc)].
  - exists P, "". rewrite HT in *. simpl. rewrite str_app_nil_r in *.
    split; [exact HP | split; [exact HA | split; [reflexivity | left; auto]]].
  - destruct (trim_end_spec (trim_start s)) as (Q & HQ & HQA & HE).
    exists P, Q. split; [rewrite <- HQ; exact HP | split; [exact HA | split; [exact HQA|]]].
    right. rewrite HT in *. rewrite trim_end_cons in * by exact Hc.
    split; [eauto|]. destruct HE as [HE|HE]; [discriminate | exact HE].
Qed.

(** *** The [replace] branch computes [String.prototype.trim] *)

Lemma trim_matches_step s last f :
  trim_matches s last (S f) =
  match trim_exec s last (S (S (String.length s))) with
  | None => []
  | Some (i, e) => (i, e) :: trim_matches s (if e =? i then S e else e) f
  end.
Proof. reflexivity. Qed.

Lemma trim_matches_none s last f :
  trim_exec s last (S (S (String.length s))) = None -> trim_matches s last f = [].
Proof. intros H. destruct f; [reflexivity|]. rewrite trim_matches_step, H. reflexivity. Qed.

Lemma exec_end s fuel : 0 < String.length s -> trim_exec s (String.length s) fuel = None.
Proof.
  intros Hn. apply exec_none. intros p Hp.
  rewrite match_at_pos by lia. replace (p <? String.length s) with false
    by (symmetry; apply Nat.ltb_ge; lia).
  rewrite andb_false_r. reflexivity.
Qed.

Lemma length_zero_empty (x : string) : String.length x = 0 -> x = "".
Proof. destruct x; simpl; [reflexivity | discriminate]. Qed.

Lemma trim_regex_replace_eq s : trim_regex_replace s = string_trim s.
Proof.
  destruct (string_trim_decomp s) as (P & Q & Hs & HP & HQ & HM).
  remember (string_trim s) as M eqn:HMdef. clear HMdef.
  unfold trim_regex_replace.
  destruct HM as [[-> ->] | [(c1 & r1 & H1 & Hc1) (m0 & c2 & H2 & Hc2)]].
  - simpl in Hs. rewrite str_app_nil_r in Hs. subst s.
    destruct P as [|c P']; [reflexivity|].
    set (s := String c P') in *.
    assert (Hrun : class_run trim_class s = String.length s)
      by (apply class_run_all; rewrite all_chars_trim_class; exact HP).
    assert (Hm0 : trim_match_at s 0 = Some (String.length s))
      by (rewrite match_at_0, Hrun; reflexivity).
    rewrite trim_matches_step.
    rewrite (exec_first s 0 0 (String.length s)); [| simpl; lia | lia | intros; lia | exact Hm0].
    replace (String.length s =? 0) with false by reflexivity.
    rewrite trim_matches_none by (apply exec_end; simpl; lia).
    cbn [replace_matches Nat.leb]. rewrite slice_empty, slice_from_length. reflexivity.
  - set (a := String.length P).
    set (b := a + String.length M).
    assert (HMQ : (M ++ Q)%string = String c1 (r1 ++ Q)) by (rewrite H1; reflexivity).
    assert (Hn : String.length s = b + String.length Q)
      by (rewrite Hs, !str_length_app; unfold b, a; lia).
    assert (HMlen : 1 <= String.length M) by (rewrite H1; simpl; lia).
    assert (Hrun : class_run trim_class s = a).
    { rewrite Hs, class_run_app by (rewrite all_chars_trim_class; exact HP).
      rewrite HMQ. simpl. rewrite trim_class_ws, Hc1. unfold a. lia. }
    assert (F1 : forall p, a <= p < b -> trim_match_at s p = None).
    { intros p Hp. destruct p as [|p].
      - rewrite match_at_0, Hrun. replace a with 0 by lia. reflexivity.
      - rewrite match_at_pos by lia.
        assert (Hs' : s = ((P ++ m0) ++ String c2 Q)%string)
          by (rewrite Hs, H2, !str_app_assoc; reflexivity).
        assert (Hlen : S p <= String.length (P ++ m0)).
        { rewrite str_length_app. unfold b, a in Hp. rewrite H2, str_length_app in Hp. simpl in Hp. lia. }
        rewrite Hs', slice_from_app_le by exact Hlen.
        rewrite all_chars_trim_class, all_chars_app. simpl. rewrite Hc2.
        rewrite andb_false_r. reflexivity. }
    assert (F2 : trim_match_at s b =
                 if b <? String.length s then Some (String.length s) else None).
    { rewrite match_at_pos by (unfold b; lia).
      assert (Hsb : slice_from s b = Q).
      { rewrite Hs, <- str_app_assoc. unfold b, a. rewrite <- str_length_app.
        apply slice_from_app_length. }
      rewrite Hsb, all_chars_trim_class, HQ. reflexivity. }
    assert (Hmid : slice s a b = M) by (rewrite Hs; apply slice_mid).
    assert (Hfirst : forall f, 2 <= f ->
              trim_matches s a f =
              match Q with EmptyString => [] | _ => [(b, String.length s)] end).
    { intros f Hf. destruct Q as [|q Q'] eqn:EQ.
      - apply trim_matches_none. apply exec_none. intros p Hp.
        destruct (Nat.lt_ge_cases p b); [apply F1; lia|].
        replace p with b by (simpl in Hn; lia). rewrite F2.
        replace (b <? String.length s) with false by (symmetry; apply Nat.ltb_ge; simpl in Hn; lia).
        reflexivity.
      - destruct f as [|f]; [lia|]. rewrite trim_matches_step.
        rewrite (exec_first s a b (String.length s)).
        + replace (String.length s =? b) with false by (symmetry; apply Nat.eqb_neq; simpl in Hn; lia).
          rewrite trim_matches_none by (apply exec_end; lia). reflexivity.
        + simpl in Hn. lia.
        + lia.
        + exact F1.
        + rewrite F2. replace (b <? String.length s) with true by (symmetry; apply Nat.ltb_lt; simpl in Hn; lia).
          reflexivity. }
    destruct (Nat.eq_dec a 0) as [Ha0|Ha0].
    + assert (HP0 : P = "") by (apply length_zero_empty; exact Ha0).
      replace 0 with a at 2 by exact Ha0.
      rewrite Hfirst by lia.
      destruct Q as [|q Q'].
      * simpl. rewrite slice_from_0, Hs, HP0. simpl. apply str_app_nil_r.
      * cbn [replace_matches]. replace (0 <=? b) with true by reflexivity.
        rewrite <- Hmid, Ha0. simpl in Hn. rewrite Hn, slice_from_beyond by lia.
        rewrite str_app_nil_r. reflexivity.
    + rewrite trim_matches_step.
      rewrite (exec_first s 0 0 a); [| lia | lia | intros; lia |].
      2:{ rewrite match_at_0, Hrun. replace (a =? 0) with false by (symmetry; apply Nat.eqb_neq; lia).
          reflexivity. }
      replace (a =? 0) with false by (symmetry; apply Nat.eqb_neq; lia).
      rewrite Hfirst by lia.
      cbn [replace_matches]. replace (0 <=? 0) with true by reflexivity.
      rewrite slice_empty. simpl (EmptyString ++ _)%string.
      destruct Q as [|q Q'].
      * rewrite Hs, str_app_nil_r. unfold a. apply slice_from_app_length.
      * cbn [replace_matches].
        replace (a <=? b) with true by (symmetry; apply Nat.leb_le; unfold b; lia).
        rewrite Hmid. simpl in Hn. rewrite Hn, slice_from_beyond by lia.
        apply str_app_nil_r.
Qed.

Lemma trim_string_trim b s : trim b s = string_trim s.
Proof. unfold trim. destruct b; [reflexivity | apply trim_regex_replace_eq]. Qed.

Lemma trim_end_last m c : is_js_ws c = false -> trim_end (m ++ String c "") = (m ++ String c "")%string.
Proof.
  intros Hc. induction m as [|d m IH]; simpl.
  - rewrite Hc. reflexivity.
  - rewrite IH. destruct m; simpl; rewrite andb_false_r; reflexivity.
Qed.

(** X1: [exports.trim] gives the same result whichever branch it takes:
    [inputString.replace(TRIM_REGULAR_EXPRESSION, '')] and
    [inputString.trim()] agree on every string. *)
Theorem trim_branches_agree (s : string) : trim false s = trim true s.
Proof. unfold trim. apply trim_regex_replace_eq. Qed.

(** X2: the input is the result with white space before and after it;
    the result is empty or starts and ends with a character that is not
    white space. *)
Theorem trim_strips_outer_whitespace (has_trim : bool) (s : string) :
  exists P Q, s = (P ++ trim has_trim s ++ Q)%string /\
    all_chars is_js_ws P = true /\ all_chars is_js_ws Q = true /\
    (trim has_trim s = "" \/
     ((exists c r, trim has_trim s = String c r /\ is_js_ws c = false) /\
      (exists m c, trim has_trim s = (m ++ String c "")%string /\ is_js_ws c = false))).
Proof.
  rewrite trim_string_trim. destruct (string_trim_decomp s) as (P & Q & Hs & HP & HQ & HM).
  exists P, Q. split; [exact Hs | split; [exact HP | split; [exact HQ |]]].
  destruct HM as [[HM _] | HM]; [left; exact HM | right; exact HM].
Qed.

(** X3: trimming twice is trimming once. *)
Theorem trim_idempotent (has_trim : bool) (s : string) :
  trim has_trim (trim has_trim s) = trim has_trim s.
Proof.
  rewrite !trim_string_trim.
  destruct (string_trim_decomp s) as (P & Q & _ & _ & _ & [[-> _] | [(c & r & H1 & Hc) (m & c' & H2 & Hc')]]);
    [reflexivity|].
  unfold string_trim at 1. rewrite H1 at 1. simpl trim_start. rewrite Hc.
  rewrite <- H1, H2. apply trim_end_last. exact Hc'.
Qed.

(** X4: the result is empty exactly when the input is white space only
    (the empty string included). *)
Theorem trim_empty_iff (has_trim : bool) (s : string) :
  trim has_trim s = "" <-> all_chars is_js_ws s = true.
Proof.
  rewrite trim_string_trim.
  destruct (string_trim_decomp s) as (P & Q & Hs & HP & HQ & HM). split.
  - intros HE. rewrite Hs, HE. simpl. rewrite all_chars_app, HP, HQ. reflexivity.
  - intros Hall. destruct HM as [[HE _] | [(c & r & H1 & Hc) _]]; [exact HE|].
    exfalso. rewrite Hs, H1 in Hall. rewrite !all_chars_app in Hall. simpl in Hall.
    rewrite Hc in Hall. rewrite andb_false_r in Hall. discriminate.
Qed.

(* ------------------------------------------------------------------ *)
(** ** More on [deepEquals], [deepCopy] and [shallowCopy] *)


Lemma strict_eq_true a b : strict_eq a b = true -> a = b.
Proof.
  destruct a, b; simpl; try discriminate; intros H; try reflexivity.
  - apply Bool.eqb_prop in H. subst. reflexivity.
  - apply Z.eqb_eq in H. subst. reflexivity.
  - apply String.eqb_eq in H. subst. reflexivity.
  - apply Nat.eqb_eq in H. subst. reflexivity.
Qed.

Lemma strict_eq_comm a b : strict_eq a b = strict_eq b a.
Proof.
  destruct a, b; simpl; try reflexivity.
  - destruct b, b0; reflexivity.
  - apply Z.eqb_sym.
  - apply String.eqb_sym.
  - apply Nat.eqb_sym.
Qed.

Lemma print_json_inj t1 t2 :
  json_wf t1 -> json_wf t2 -> print_json t1 = print_json t2 -> t1 = t2.
Proof.
  intros H1 H2 Heq.
  pose proof (parse_print t1 H1 (json_size t1 + json_size t2) "" ltac:(lia) eq_refl) as P1.
  pose proof (parse_print t2 H2 (json_size t1 + json_size t2) "" ltac:(lia) eq_refl) as P2.
  rewrite Heq, P2 in P1. congruence.
Qed.

Lemma deepEquals_trees h a b t1 t2 :
  reps h [] a t1 -> reps h [] b t2 ->
  exists r, deepEquals h a b = Ok r /\ (r = true <-> t1 = t2).
Proof.
  intros Ha Hb. unfold deepEquals.
  destruct (strict_eq a b) eqn:Hs.
  - exists true. split; [reflexivity|]. split; [intros _|reflexivity].
    apply strict_eq_true in Hs. subst b.
    apply print_json_inj; [eapply reps_wf; eauto | eapply reps_wf; eauto |].
    pose proof (JSON_stringify_reps _ _ _ Ha) as E1.
    rewrite (JSON_stringify_reps _ _ _ Hb) in E1. congruence.
  - destruct (negb (String.eqb (typeof h a) "object") || negb (String.eqb (typeof h b) "object")) eqn:Ht.
    + exists false. split; [reflexivity|]. split; [discriminate|]. intros <-. exfalso.
      rewrite (typeof_reps _ _ _ _ Ha), (typeof_reps _ _ _ _ Hb) in Ht.
      destruct t1; try discriminate Ht;
        inversion Ha; inversion Hb; subst; simpl in Hs;
        rewrite ?eqb_reflx, ?Z.eqb_refl, ?String.eqb_refl in Hs; discriminate.
    + rewrite (JSON_stringify_reps _ _ _ Ha), (JSON_stringify_reps _ _ _ Hb). cbn [bind_result].
      eexists. split; [reflexivity|]. rewrite String.eqb_eq. split; [|intros ->; reflexivity].
      apply print_json_inj; eapply reps_wf; eauto.
Qed.

(** X5: on two JSON-serialisable values, [deepEquals] returns, and returns
    [true] exactly when they denote the same JSON tree: the same
    primitive, arrays with deep-equal elements in the same order, objects
    with the same keys in the same order and deep-equal values. *)
Theorem deepEquals_same_tree (h : heap) (a b : jsval) (t1 t2 : json) :
  reps h [] a t1 -> reps h [] b t2 ->
  exists r, deepEquals h a b = Ok r /\ (r = true <-> t1 = t2).
Proof. apply deepEquals_trees. Qed.

Lemma deepEquals_same_tree_witness :
  reps [OPlain [("a", VNum 1%Z); ("b", VNum 2%Z)]; OPlain [("b", VNum 2%Z); ("a", VNum 1%Z)]] [] (VRef 0) (JObj [("a", JNum 1%Z); ("b", JNum 2%Z)]) /\
  reps [OPlain [("a", VNum 1%Z); ("b", VNum 2%Z)]; OPlain [("b", VNum 2%Z); ("a", VNum 1%Z)]]
    [] (VRef 1) (JObj [("b", JNum 2%Z); ("a", JNum 1%Z)]) /\
  exists r, deepEquals [OPlain [("a", VNum 1%Z); ("b", VNum 2%Z)]; OPlain [("b", VNum 2%Z); ("a", VNum 1%Z)]] (VRef 0) (VRef 1) = Ok r /\
    (r = true <-> JObj [("a", JNum 1%Z); ("b", JNum 2%Z)] = JObj [("b", JNum 2%Z); ("a", JNum 1%Z)]).
Proof.
  set (h := [OPlain [("a", VNum 1%Z); ("b", VNum 2%Z)]; OPlain [("b", VNum 2%Z); ("a", VNum 1%Z)]]).
  assert (H0 : reps h [] (VRef 0) (JObj [("a", JNum 1%Z); ("b", JNum 2%Z)])).
  { eapply reps_obj with (ps := [("a", VNum 1%Z); ("b", VNum 2%Z)]); [reflexivity | simpl; tauto | | reflexivity |].
    - split; [repeat constructor; simpl; intuition discriminate | reflexivity].
    - repeat constructor; simpl; unfold max_safe; lia. }
  assert (H1 : reps h [] (VRef 1) (JObj [("b", JNum 2%Z); ("a", JNum 1%Z)])).
  { eapply reps_obj with (ps := [("b", VNum 2%Z); ("a", VNum 1%Z)]); [reflexivity | simpl; tauto | | reflexivity |].
    - split; [repeat constructor; simpl; intuition discriminate | reflexivity].
    - repeat constructor; simpl; unfold max_safe; lia. }
  split; [exact H0 | split; [exact H1 |]].
  exact (deepEquals_same_tree h _ _ _ _ H0 H1).
Defined.

(** X6: [deepEquals] is symmetric whenever it returns. *)
Theorem deepEquals_symmetric (h : heap) (a b : jsval) (r : bool) :
  deepEquals h a b = Ok r -> deepEquals h b a = Ok r.
Proof.
  unfold deepEquals. rewrite strict_eq_comm. destruct (strict_eq b a); [auto|].
  rewrite orb_comm. destruct (_ || _); [auto|].
  destruct (JSON_stringify h a) as [sa|ea], (JSON_stringify h b) as [sb|eb];
    cbn [bind_result]; try discriminate.
  destruct sa, sb; try (intros H; exact H). rewrite String.eqb_sym. auto.
Qed.

Lemma deepEquals_symmetric_witness :
  deepEquals [OArray [VNum 1%Z]; OArray [VNum 2%Z]] (VRef 0) (VRef 1) = Ok false /\
  deepEquals [OArray [VNum 1%Z]; OArray [VNum 2%Z]] (VRef 1) (VRef 0) = Ok false.
Proof.
  assert (H : deepEquals [OArray [VNum 1%Z]; OArray [VNum 2%Z]] (VRef 0) (VRef 1) = Ok false)
    by reflexivity.
  split; [exact H | exact (deepEquals_symmetric _ _ _ _ H)].
Defined.

(** *** The objects [deepCopy] returns are new *)

Lemma alloc_seq_ext {A B} (f : heap -> A -> heap * B) xs :
  (forall x, In x xs -> forall h, exists e, fst (f h x) = (h ++ e)%list) ->
  forall h, exists e, fst (alloc_seq f h xs) = (h ++ e)%list.
Proof.
  induction xs as [|x xs IH]; intros Hf h; simpl.
  - exists []. rewrite app_nil_r. reflexivity.
  - destruct (Hf x (or_introl eq_refl) h) as [e1 He1].
    destruct (IH (fun y Hy => Hf y (or_intror Hy)) (fst (f h x))) as [e2 He2].
    exists (e1 ++ e2)%list. rewrite He2, He1, app_assoc. reflexivity.
Qed.

Lemma alloc_seq_in {A B} (f : heap -> A -> heap * B) xs :
  (forall x, In x xs -> forall h, exists e, fst (f h x) = (h ++ e)%list) ->
  forall h y, In y (snd (alloc_seq f h xs)) ->
  exists x h0, In x xs /\ y = snd (f h0 x) /\ (exists e0, h0 = (h ++ e0)%list) /\
    exists e1, fst (alloc_seq f h xs) = (fst (f h0 x) ++ e1)%list.
Proof.
  induction xs as [|x xs IH]; intros Hf h y Hy; simpl in Hy; [contradiction|].
  destruct Hy as [Hy|Hy].
  - exists x, h. split; [left; reflexivity | split; [symmetry; exact Hy | split]].
    + exists []. rewrite app_nil_r. reflexivity.
    + simpl. apply alloc_seq_ext. intros; apply Hf; right; assumption.
  - destruct (IH (fun z Hz => Hf z (or_intror Hz)) (fst (f h x)) y Hy)
      as (x' & h0 & Hin & Hy' & (e0 & He0) & e1 & He1).
    destruct (Hf x (or_introl eq_refl) h) as [e He].
    exists x', h0. split; [right; exact Hin | split; [exact Hy' | split]].
    + exists (e ++ e0)%list. rewrite He0, He, app_assoc. reflexivity.
    + exists e1. exact He1.
Qed.

Lemma alloc_json_ext t : forall h, exists e, fst (alloc_json h t) = (h ++ e)%list.
Proof.
  induction t as [| b | n | s | ts IH | ms IH] using json_ind'; intros h;
    try (exists []; simpl; rewrite app_nil_r; reflexivity).
  - cbn [alloc_json]. unfold alloc. cbn [fst].
    destruct (alloc_seq_ext alloc_json ts (fun x Hx => proj1 (Forall_forall _ _) IH x Hx) h) as [e He].
    exists (e ++ [OArray (snd (alloc_seq alloc_json h ts))])%list. rewrite He, app_assoc. reflexivity.
  - cbn [alloc_json]. unfold alloc. cbn [fst].
    edestruct (alloc_seq_ext (fun h m => let hv := alloc_json h (snd m) in (fst hv, (fst m, snd hv))) ms)
      as [e He].
    { intros m Hm h0. cbn. exact (proj1 (Forall_forall _ _) IH m Hm h0). }
    rewrite He, <- app_assoc. eexists. reflexivity.
Qed.

Lemma obj_set_in acc k v p : In p (obj_set acc k v) -> In p acc \/ p = (k, v).
Proof.
  unfold obj_set. destruct (has_key acc k).
  - intros Hin. apply in_map_iff in Hin as (q & Hq & Hin).
    destruct (String.eqb (fst q) k); [right; congruence | left; congruence].
  - destruct (array_index k) as [i|].
    + induction acc as [|[k' v'] acc IH]; simpl; [intuition|].
      destruct (array_index k') as [j|]; [destruct (i <? j)%N|]; simpl; intuition.
    + rewrite in_app_iff. simpl. intuition.
Qed.

Lemma fold_obj_set_in ps acc p :
  In p (fold_left (fun acc p => obj_set acc (fst p) (snd p)) ps acc) -> In p acc \/ In p ps.
Proof.
  revert acc. induction ps as [|q ps IH]; intros acc Hin; simpl in *; [auto|].
  destruct (IH _ Hin) as [H|H]; [|auto].
  apply obj_set_in in H as [H|H]; [auto|]. right; left. destruct q; simpl in *; congruence.
Qed.

Lemma deref_last (x : heap) o e : deref (x ++ o :: e)%list (length x) = Some o.
Proof. unfold deref. rewrite nth_error_app2, Nat.sub_diag by lia. reflexivity. Qed.

Lemma alloc_json_fresh t : forall h H,
  (exists e, H = (fst (alloc_json h t) ++ e)%list) ->
  forall l, reaches H (snd (alloc_json h t)) l -> length h <= l.
Proof.
  induction t as [| b | n | s | ts IH | ms IH] using json_ind'; intros h H [e HE] l Hr;
    try (inversion Hr; fail).
  - cbn [alloc_json] in *. unfold alloc in *. cbn [fst snd] in *.
    rewrite <- app_assoc in HE. simpl in HE.
    assert (Hext := alloc_seq_ext alloc_json ts (fun x Hx => alloc_json_ext x) h).
    destruct Hext as [e' He'].
    assert (Hlen : length h <= length (fst (alloc_seq alloc_json h ts)))
      by (rewrite He', length_app; lia).
    inversion Hr as [| l0 vs v l' Hd Hin Hr' | l0 ps p l' Hd Hin Hr']; subst; [lia| |].
    + rewrite deref_last in Hd. injection Hd as <-.
      destruct (alloc_seq_in alloc_json ts (fun x Hx => alloc_json_ext x) h v Hin)
        as (t' & h0 & Ht' & -> & (e0 & He0) & e1 & He1).
      assert (IHt := proj1 (Forall_forall _ _) IH t' Ht').
      specialize (IHt h0 (fst (alloc_seq alloc_json h ts) ++ OArray (snd (alloc_seq alloc_json h ts)) :: e)%list).
      assert (l >= length h0). { apply IHt; [|exact Hr']. exists (e1 ++ OArray (snd (alloc_seq alloc_json h ts)) :: e)%list.
        rewrite He1, <- app_assoc. reflexivity. }
      rewrite He0, length_app in H. lia.
    + rewrite deref_last in Hd. discriminate.
  - cbn [alloc_json] in *. unfold alloc in *. cbn [fst snd] in *.
    rewrite <- app_assoc in HE. simpl in HE.
    set (g := fun h m => let hv := alloc_json h (snd m) in (fst hv, (fst m, snd hv))) in *.
    assert (Hg : forall m, In m ms -> forall h, exists e, fst (g h m) = (h ++ e)%list)
      by (intros m _ h0; apply alloc_json_ext).
    destruct (alloc_seq_ext g ms Hg h) as [e' He'].
    assert (Hlen : length h <= length (fst (alloc_seq g h ms)))
      by (rewrite He', length_app; lia).
    inversion Hr as [| l0 vs v l' Hd Hin Hr' | l0 ps p l' Hd Hin Hr']; subst; [lia| |].
    + rewrite deref_last in Hd. discriminate.
    + rewrite deref_last in Hd. injection Hd as <-.
      apply fold_obj_set_in in Hin as [Hin|Hin]; [contradiction|].
      destruct (alloc_seq_in g ms Hg h p Hin) as (m & h0 & Hm & -> & (e0 & He0) & e1 & He1).
      assert (IHm := proj1 (Forall_forall _ _) IH m Hm).
      cbn in Hr', He1.
      assert (l >= length h0). { eapply IHm; [|exact Hr'].
        eexists. rewrite He1, <- app_assoc. reflexivity. }
      rewrite He0, length_app in H. lia.
Qed.

(** X7: for an input whose [typeof] is ['object'], a successful [deepCopy]
    leaves the existing objects as they were and returns a value all of
    whose objects (itself, its elements and property values, at any depth)
    are newly created: the copy shares no object with the input. *)
Theorem deepCopy_fresh (h h' : heap) (obj c : jsval) :
  typeof h obj = "object" -> deepCopy h obj = Ok (h', c) ->
  (exists e, h' = (h ++ e)%list) /\ forall l, reaches h' c l -> length h <= l.
Proof.
  intros Hty. unfold deepCopy. rewrite Hty, String.eqb_refl.
  destruct (JSON_stringify h obj) as [so|err]; cbn [bind_result]; [|discriminate].
  unfold JSON_parse.
  destruct (parse_value _ _) as [[t rest]|err]; cbn [bind_result]; [|discriminate].
  destruct (String.eqb (skip_ws (snd (t, rest))) ""); [|discriminate].
  intros Hok. injection Hok as Hok.
  assert (Hh : h' = fst (alloc_json h t)) by (rewrite Hok; reflexivity).
  assert (Hc : c = snd (alloc_json h t)) by (rewrite Hok; reflexivity).
  split; [rewrite Hh; apply alloc_json_ext|].
  intros l Hr. rewrite Hc in Hr. eapply alloc_json_fresh; [|exact Hr].
  exists []. rewrite app_nil_r. exact Hh.
Qed.

Lemma deepCopy_fresh_witness :
  typeof [OArray [VNum 1%Z]] (VRef 0) = "object" /\
  deepCopy [OArray [VNum 1%Z]] (VRef 0) = Ok ([OArray [VNum 1%Z]; OArray [VNum 1%Z]], VRef 1) /\
  (exists e, [OArray [VNum 1%Z]; OArray [VNum 1%Z]] = ([OArray [VNum 1%Z]] ++ e)%list) /\
  forall l, reaches [OArray [VNum 1%Z]; OArray [VNum 1%Z]] (VRef 1) l -> 1 <= l.
Proof.
  assert (Hty : typeof [OArray [VNum 1%Z]] (VRef 0) = "object") by reflexivity.
  assert (Hc : deepCopy [OArray [VNum 1%Z]] (VRef 0) = Ok ([OArray [VNum 1%Z]; OArray [VNum 1%Z]], VRef 1))
    by reflexivity.
  split; [exact Hty | split; [exact Hc |]].
  exact (deepCopy_fresh _ _ _ _ Hty Hc).
Defined.

(** *** [shallowCopy] keeps the tree *)

Lemma reps_restack t : forall h stack v, reps h stack v t ->
  forall stack', (forall x, In x stack' -> In x stack \/ length h <= x) -> reps h stack' v t.
Proof.
  induction t as [| b | n | s | ts IH | ms IH] using json_ind'; intros h stack v Hr stack' Hs.
  - inversion Hr; subst; constructor.
  - inversion Hr; subst; constructor.
  - inversion Hr; subst; constructor; assumption.
  - inversion Hr; subst; constructor.
  - inversion Hr as [| | | | ? l vs ? Hd Hn H2 | ]; subst.
    eapply reps_arr; [exact Hd | |].
    + intros Hin. destruct (Hs _ Hin) as [H'|H']; [contradiction|].
      apply deref_lt in Hd. lia.
    + eapply Forall2_Forall_r; [exact IH | exact H2 |]. simpl. intros x y IHy Hxy.
      eapply IHy; [exact Hxy|].
      intros z [->|Hz]; [left; left; reflexivity|]. destruct (Hs z Hz); [left; right|right]; auto.
  - inversion Hr as [| | | | | ? l ps ? Hd Hn Hk Hkeys H2]; subst.
    eapply reps_obj; [exact Hd | | exact Hk | exact Hkeys |].
    + intros Hin. destruct (Hs _ Hin) as [H'|H']; [contradiction|].
      apply deref_lt in Hd. lia.
    + eapply Forall2_Forall_r with
        (P := fun m => forall h stack v, reps h stack v (snd m) -> forall stack',
                (forall x, In x stack' -> In x stack \/ length h <= x) -> reps h stack' v (snd m));
        [exact IH | exact H2 |].
      simpl. intros x y IHy Hxy. eapply IHy; [exact Hxy|].
      intros z [->|Hz]; [left; left; reflexivity|]. destruct (Hs z Hz); [left; right|right]; auto.
Qed.

(** X8: [shallowCopy] of a JSON-serialisable value that it does not reject
    is [deepEquals] to it: the copy denotes the same JSON tree. *)
Theorem shallowCopy_deepEquals (h h' : heap) (obj c : jsval) (t : json) :
  reps h [] obj t -> shallowCopy h obj = Ok (h', c) -> deepEquals h' c obj = Ok true.
Proof.
  intros Hr. inversion Hr as [st | st b | st n Hn | st s | st l vs ts Hd Hnin HF | st l ps ms Hd Hnin Hk Hkeys HF];
    subst.
  - discriminate.
  - intros H; injection H as <- <-. unfold deepEquals, strict_eq. rewrite eqb_reflx. reflexivity.
  - intros H; injection H as <- <-. unfold deepEquals, strict_eq. rewrite Z.eqb_refl. reflexivity.
  - intros H; injection H as <- <-. unfold deepEquals, strict_eq. rewrite String.eqb_refl. reflexivity.
  - unfold shallowCopy, isArray. rewrite Hd. unfold alloc. intros H; injection H as <- <-.
    destruct (deepEquals_trees (h ++ [OArray vs])%list (VRef (length h)) (VRef l) (JArr ts) (JArr ts))
      as (r & Hr' & Hiff).
    + eapply reps_arr; [apply deref_last | simpl; tauto |].
      eapply Forall2_impl; [|exact HF]. intros x y Hxy. apply reps_mono.
      eapply reps_restack; [exact Hxy|]. intros z [->|[]]. right. lia.
    + apply reps_mono. exact Hr.
    + rewrite Hr'. f_equal. apply Hiff. reflexivity.
  - unfold shallowCopy, isArray, typeof. rewrite Hd. cbn -[obj_set own_prop].
    rewrite (fold_copy_props ps ps []); [| exact Hk | intros k v Hin; apply own_prop_nodup; [apply Hk | exact Hin]].
    unfold alloc. intros H; injection H as <- <-.
    destruct (deepEquals_trees (h ++ [OPlain ps])%list (VRef (length h)) (VRef l) (JObj ms) (JObj ms))
      as (r & Hr' & Hiff).
    + eapply reps_obj; [apply deref_last | simpl; tauto | exact Hk | exact Hkeys |].
      eapply Forall2_impl; [|exact HF]. intros x y Hxy. apply reps_mono.
      eapply reps_restack; [exact Hxy|]. intros z [->|[]]. right. lia.
    + apply reps_mono. exact Hr.
    + rewrite Hr'. f_equal. apply Hiff. reflexivity.
Qed.

Lemma shallowCopy_deepEquals_witness :
  reps [OArray [VNum 1%Z; VNull]] [] (VRef 0) (JArr [JNum 1%Z; JNull]) /\
  shallowCopy [OArray [VNum 1%Z; VNull]] (VRef 0) =
    Ok ([OArray [VNum 1%Z; VNull]; OArray [VNum 1%Z; VNull]], VRef 1) /\
  deepEquals [OArray [VNum 1%Z; VNull]; OArray [VNum 1%Z; VNull]] (VRef 1) (VRef 0) = Ok true.
Proof.
  assert (Hr : reps [OArray [VNum 1%Z; VNull]] [] (VRef 0) (JArr [JNum 1%Z; JNull])).
  { eapply reps_arr; [reflexivity | simpl; tauto |].
    constructor; [constructor; unfold max_safe; lia | repeat constructor]. }
  assert (Hc : shallowCopy [OArray [VNum 1%Z; VNull]] (VRef 0) =
    Ok ([OArray [VNum 1%Z; VNull]; OArray [VNum 1%Z; VNull]], VRef 1)) by reflexivity.
  split; [exact Hr | split; [exact Hc |]].
  exact (shallowCopy_deepEquals _ _ _ _ _ Hr Hc).
Defined.

(** *** Cyclic values are not serialised *)

Lemma map_result_in {A B} (f : A -> result B) xs ys x :
  map_result f xs = Ok ys -> In x xs -> exists y, f x = Ok y.
Proof.
  revert ys. induction xs as [|x' xs IH]; intros ys Hm Hin; [contradiction|].
  cbn [map_result] in Hm. destruct (f x') as [y|e] eqn:Hf; cbn [bind_result] in Hm; [|discriminate].
  destruct (map_result f xs) as [ys'|e] eqn:Hms; cbn [bind_result] in Hm; [|discriminate].
  destruct Hin as [<-|Hin]; [eauto|]. eapply IH; eauto.
Qed.

Lemma serialize_child_ok f h stack l o v r :
  deref h l = Some o ->
  (match o with OArray vs => In v vs | OPlain ps => In v (map snd ps) | OFunction => False end) ->
  serialize f h stack (VRef l) = Ok r ->
  exists f' r', serialize f' h (l :: stack) v = Ok r'.
Proof.
  intros Hd Hin Hs. destruct f as [|f']; cbn [serialize] in Hs; rewrite Hd in Hs;
    (destruct (has_toJSON h o); [discriminate|]);
    (destruct o as [vs|ps|]; [| |contradiction]);
    (destruct (existsb (Nat.eqb l) stack); [discriminate|]); try discriminate; exists f'.
  - destruct (map_result _ vs) as [strs|e] eqn:Hm; cbn [bind_result] in Hs; [|discriminate].
    destruct (map_result_in _ _ _ _ Hm Hin) as [y Hy].
    destruct (serialize f' h (l :: stack) v) as [r'|e]; cbn [bind_result] in Hy; [eauto|discriminate].
  - apply in_map_iff in Hin as (p & <- & Hin).
    destruct (map_result _ ps) as [ms|e] eqn:Hm; cbn [bind_result] in Hs; [|discriminate].
    destruct (map_result_in _ _ _ _ Hm Hin) as [y Hy].
    destruct (serialize f' h (l :: stack) (snd p)) as [r'|e]; cbn [bind_result] in Hy; [eauto|discriminate].
Qed.

Lemma serialize_cycle h v l :
  reaches h v l -> forall f stack r, serialize f h stack v = Ok r -> In l stack ->
  (exists vs, deref h l = Some (OArray vs)) \/ (exists ps, deref h l = Some (OPlain ps)) -> False.
Proof.
  induction 1 as [l | l0 vs v l' Hd Hin Hr IH | l0 ps p l' Hd Hin Hr IH];
    intros f stack r Hs Hl Ho.
  - destruct f; cbn [serialize] in Hs;
    assert (Hex : existsb (Nat.eqb l) stack = true)
      by (apply existsb_exists; exists l; split; [exact Hl | apply Nat.eqb_refl]);
    (destruct Ho as [[vs Hd]|[ps Hd]]; rewrite Hd in Hs;
      (destruct (has_toJSON h _); [discriminate|]); rewrite Hex in Hs; discriminate).
  - destruct (serialize_child_ok f h stack l0 (OArray vs) v r Hd Hin Hs) as (f' & r' & Hs').
    eapply IH; [exact Hs' | right; exact Hl | exact Ho].
  - destruct (serialize_child_ok f h stack l0 (OPlain ps) (snd p) r Hd
      (in_map snd ps p Hin) Hs) as (f' & r' & Hs').
    eapply IH; [exact Hs' | right; exact Hl | exact Ho].
Qed.

Lemma stringify_cycle h l v :
  ((exists vs, deref h l = Some (OArray vs) /\ In v vs) \/
   (exists ps, deref h l = Some (OPlain ps) /\ In v (map snd ps))) ->
  reaches h v l -> forall r, JSON_stringify h (VRef l) <> Ok r.
Proof.
  intros Hc Hr r Hs. unfold JSON_stringify in Hs.
  destruct Hc as [(vs & Hd & Hin)|(ps & Hd & Hin)].
  - destruct (serialize_child_ok _ h [] l (OArray vs) v r Hd Hin Hs) as (f' & r' & Hs').
    eapply serialize_cycle; [exact Hr | exact Hs' | left; reflexivity | left; eauto].
  - destruct (serialize_child_ok _ h [] l (OPlain ps) v r Hd Hin Hs) as (f' & r' & Hs').
    eapply serialize_cycle; [exact Hr | exact Hs' | left; reflexivity | right; eauto].
Qed.

(** X9: in a heap where no object has a [toJSON] method, an array or
    plain object that contains itself (one of its elements or property
    values leads back to it) makes [deepCopy] throw, and makes
    [deepEquals] throw when it is compared with another object: neither
    returns a result. *)
Theorem cyclic_not_copied (h : heap) (l : loc) (v : jsval) :
  (forall l' o, deref h l' = Some o -> has_toJSON h o = false) ->
  ((exists vs, deref h l = Some (OArray vs) /\ In v vs) \/
   (exists ps, deref h l = Some (OPlain ps) /\ In v (map snd ps))) ->
  reaches h v l ->
  (forall r, deepCopy h (VRef l) <> Ok r) /\
  (forall b r, typeof h b = "object" -> strict_eq (VRef l) b = false ->
     deepEquals h (VRef l) b <> Ok r).
Proof.
  intros _ Hc Hr.
  assert (Hty : typeof h (VRef l) = "object")
    by (destruct Hc as [(? & Hd & _)|(? & Hd & _)]; simpl; rewrite Hd; reflexivity).
  assert (Hs := stringify_cycle h l v Hc Hr).
  split.
  - intros r. unfold deepCopy. rewrite Hty, String.eqb_refl.
    destruct (JSON_stringify h (VRef l)) as [so|e] eqn:E; [exfalso; exact (Hs _ eq_refl)|discriminate].
  - intros b r Hb Hne. unfold deepEquals. rewrite Hne, Hty, Hb, String.eqb_refl. cbn [negb orb].
    destruct (JSON_stringify h (VRef l)) as [so|e] eqn:E; [exfalso; exact (Hs _ eq_refl)|discriminate].
Qed.

Lemma cyclic_not_copied_witness :
  (forall l' o, deref [OArray [VRef 0]] l' = Some o -> has_toJSON [OArray [VRef 0]] o = false) /\
  ((exists vs, deref [OArray [VRef 0]] 0 = Some (OArray vs) /\ In (VRef 0) vs) \/
   (exists ps, deref [OArray [VRef 0]] 0 = Some (OPlain ps) /\ In (VRef 0) (map snd ps))) /\
  reaches [OArray [VRef 0]] (VRef 0) 0 /\
  (forall r, deepCopy [OArray [VRef 0]] (VRef 0) <> Ok r) /\
  (forall b r, typeof [OArray [VRef 0]] b = "object" -> strict_eq (VRef 0) b = false ->
     deepEquals [OArray [VRef 0]] (VRef 0) b <> Ok r).
Proof.
  assert (Hc : (exists vs, deref [OArray [VRef 0]] 0 = Some (OArray vs) /\ In (VRef 0) vs) \/
     (exists ps, deref [OArray [VRef 0]] 0 = Some (OPlain ps) /\ In (VRef 0) (map snd ps)))
    by (left; exists [VRef 0]; split; [reflexivity | left; reflexivity]).
  assert (Hr : reaches [OArray [VRef 0]] (VRef 0) 0) by apply reaches_here.
  assert (Hno : forall l' o, deref [OArray [VRef 0]] l' = Some o -> has_toJSON [OArray [VRef 0]] o = false)
    by (intros [|l'] o Hd; simpl in Hd; [injection Hd as <-; reflexivity | destruct l'; discriminate Hd]).
  split; [exact Hno | split; [exact Hc | split; [exact Hr |]]].
  exact (cyclic_not_copied _ _ _ Hno Hc Hr).
Defined.

(** *** [shallowCopy] gives a new reference *)

(** X10: a value of type ['object'] that [shallowCopy] copies gets a new
    object at a fresh location, appended to the heap, so the existing
    objects are left as they were and the copy is not [===] to the
    input. *)
Theorem shallowCopy_new_reference (h h' : heap) (obj c : jsval) :
  typeof h obj = "object" -> shallowCopy h obj = Ok (h', c) ->
  (exists o, h' = (h ++ [o])%list) /\ c = VRef (length h) /\ strict_eq c obj = false.
Proof.
  intros Hty. unfold shallowCopy. rewrite Hty, String.eqb_refl.
  destruct obj as [| | | | |l]; simpl; try discriminate.
  destruct (deref h l) as [[vs|ps|]|] eqn:Hd; simpl; try discriminate;
    unfold alloc; intros H; injection H as <- <-;
    (split; [eexists; reflexivity | split; [reflexivity|]]);
    apply deref_lt in Hd; simpl; apply Nat.eqb_neq; lia.
Qed.

Lemma shallowCopy_new_reference_witness :
  typeof [OPlain [("a", VNum 1%Z)]] (VRef 0) = "object" /\
  shallowCopy [OPlain [("a", VNum 1%Z)]] (VRef 0) =
    Ok ([OPlain [("a", VNum 1%Z)]; OPlain [("a", VNum 1%Z)]], VRef 1) /\
  (exists o, [OPlain [("a", VNum 1%Z)]; OPlain [("a", VNum 1%Z)]] = ([OPlain [("a", VNum 1%Z)]] ++ [o])%list) /\
  VRef 1 = VRef (length [OPlain [("a", VNum 1%Z)]]) /\ strict_eq (VRef 1) (VRef 0) = false.
Proof.
  assert (Hty : typeof [OPlain [("a", VNum 1%Z)]] (VRef 0) = "object") by reflexivity.
  assert (Hc : shallowCopy [OPlain [("a", VNum 1%Z)]] (VRef 0) =
    Ok ([OPlain [("a", VNum 1%Z)]; OPlain [("a", VNum 1%Z)]], VRef 1)) by reflexivity.
  split; [exact Hty | split; [exact Hc |]].
  exact (shallowCopy_new_reference _ _ _ _ Hty Hc).
Defined.

(** *** [deepEquals] on a value that is not an object *)

(** X11: when one of the two arguments is not of type ['object'] (a
    primitive, [undefined] or a function), [deepEquals] returns, in either
    argument order, the result of [===]. *)
Theorem deepEquals_non_object (h : heap) (a b : jsval) :
  typeof h a <> "object" ->
  deepEquals h a b = Ok (strict_eq a b) /\ deepEquals h b a = Ok (strict_eq a b).
Proof.
  intros Ha. apply String.eqb_neq in Ha. unfold deepEquals.
  rewrite (strict_eq_comm b a).
  destruct (strict_eq a b); [split; reflexivity|].
  rewrite Ha. cbn [negb orb]. rewrite orb_true_r. split; reflexivity.
Qed.

Lemma deepEquals_non_object_witness :
  typeof [] (VStr "1") <> "object" /\
  deepEquals [] (VStr "1") (VNum 1%Z) = Ok false /\ deepEquals [] (VNum 1%Z) (VStr "1") = Ok false.
Proof.
  assert (Ha : typeof [] (VStr "1") <> "object") by (simpl; discriminate).
  split; [exact Ha |].
  exact (deepEquals_non_object [] (VStr "1") (VNum 1%Z) Ha).
Defined.


(** ** The timer wrappers *)

Import ITreeNotations.

(** A recursive function whose body immediately calls itself, with the
    same argument, neither returns nor performs any event. *)
Lemma rec_self_call {E A B} (body : A -> itree (callE A B +' E) B) (a : A) :
  body a = call a -> rec body a ≈ ITree.spin.
Proof.
  intros Hb. ginit. gcofix CIH.
  unfold rec, mrec. rewrite unfold_interp_mrec. simpl calling'. rewrite Hb.
  unfold call, ITree.trigger. cbn.
  rewrite (itree_eta ITree.spin). cbn.
  gstep. constructor.
  rewrite bind_ret_r. gbase. apply CIH.
Qed.

Lemma rec_ret {E A B} (body : A -> itree (callE A B +' E) B) (a : A) (b : B) :
  body a = Ret b -> rec body a ≈ Ret b.
Proof.
  intros Hb. unfold rec, mrec. rewrite unfold_interp_mrec. simpl calling'.
  rewrite Hb. reflexivity.
Qed.

(** C8.  With a [null] duration, [setTimeout] and [setInterval] return the
    sentinel [-1] at once, without any timer event.  With any other
    duration they call themselves with the same arguments, never reach the
    platform timer and never return: the computation is equivalent to the
    silent divergent one. *)
Theorem timer_wrappers_behaviour :
  (forall callback, setTimeout callback VNull ≈ Ret (VNum (-1))) /\
  (forall callback d, is_null d = false -> setTimeout callback d ≈ ITree.spin) /\
  (forall callback, setInterval callback VNull ≈ Ret (VNum (-1))) /\
  (forall callback d, is_null d = false -> setInterval callback d ≈ ITree.spin).
Proof.
  repeat split; intros.
  - apply rec_ret. reflexivity.
  - apply rec_self_call. simpl. rewrite H. reflexivity.
  - apply rec_ret. reflexivity.
  - apply rec_self_call. simpl. rewrite H. reflexivity.
Qed.

Lemma timer_wrappers_behaviour_witness :
  is_null (VNum 1000) = false /\
  setTimeout VUndefined (VNum 1000) ≈ ITree.spin /\
  setInterval VUndefined (VNum 1000) ≈ ITree.spin.
Proof.
  split; [reflexivity | split].
  - apply (proj1 (proj2 timer_wrappers_behaviour)). reflexivity.
  - apply (proj2 (proj2 (proj2 timer_wrappers_behaviour))). reflexivity.
Defined.

(** *** [nextTick] *)


Lemma translate_spin {E F R} (h : E ~> F) : translate h (@ITree.spin E R) ≈ ITree.spin.
Proof.
  ginit. gcofix CIH.
  rewrite unfold_translate. rewrite (itree_eta (@ITree.spin F R)). cbn.
  gstep. constructor. gbase. apply CIH.
Qed.

Lemma bind_spin {E R S} (k : R -> itree E S) : ITree.bind (@ITree.spin E R) k ≈ ITree.spin.
Proof.
  ginit. gcofix CIH.
  rewrite unfold_bind. rewrite (itree_eta (@ITree.spin E S)). cbn.
  gstep. constructor. gbase. apply CIH.
Qed.

(** X13: elsewhere (no [process], or one whose [toString()] is not
    ['[object process]']), [nextTick(fn)] goes to the [setTimeout] wrapper
    with a duration of [0], which calls itself for ever: [fn] is never
    scheduled, no timer is set and the call never returns. *)
Theorem nextTick_browser (process : option string) (fn : jsval) :
  isNode process = false -> nextTick process fn ≈ ITree.spin.
Proof.
  intros H. unfold nextTick. rewrite H.
  assert (Hs : setTimeout fn (VNum 0) ≈ ITree.spin) by (apply rec_self_call; reflexivity).
  rewrite Hs, translate_spin. apply bind_spin.
Qed.

Lemma nextTick_browser_witness :
  isNode None = false /\ isNode (Some "[object Object]") = false /\
  nextTick None VUndefined ≈ ITree.spin /\ nextTick (Some "[object Object]") VUndefined ≈ ITree.spin.
Proof.
  split; [reflexivity | split; [reflexivity | split]]; apply nextTick_browser; reflexivity.
Defined.
